(** * ISP cooling device: fps/level translation and cooling-state apply

    A shallow embedding of [drivers/thermal/samsung/isp_cooling.c]:
    the table scan of [get_property] with its two exported wrappers,
    the cooling-state transition of [isp_apply_cooling], and the table
    construction of [isp_cooling_table_init].

    C integers are values of [Z]; every conversion the source performs
    is written out with the wrap-around of its type. The tree targets
    arm64, so [int] and [unsigned int] are 32 bits wide and
    [unsigned long] is 64 bits wide. *)

From Stdlib Require Import ZArith Bool Lia Sorted.
From stdpp Require Import base list strings gmap.

Local Open Scope Z_scope.

(** ** C integer conversions *)

Module C.

Definition UINT_MAX : Z := 4294967295.
Definition INT_MAX : Z := 2147483647.

(** [(unsigned int) z] *)
Definition uint (z : Z) : Z := z mod 2 ^ 32.

(** [(unsigned long) z] *)
Definition ulong (z : Z) : Z := z mod 2 ^ 64.

(** [(int) z]: the low 32 bits read as two's complement (the kernel is
    built with wrapping signed arithmetic). *)
Definition sint (z : Z) : Z := (z + 2 ^ 31) mod 2 ^ 32 - 2 ^ 31.

(** The values of an [unsigned int]. *)
Definition is_uint (z : Z) : Prop := 0 <= z <= UINT_MAX.

End C.
Import C.

(** ** Errno values ([include/uapi/asm-generic/errno-base.h]) *)

Definition ENOMEM : Z := 12.
Definition ENODEV : Z := 19.
Definition EINVAL : Z := 22.

(** ** The header [soc/samsung/isp_cooling.h]

    The header is not part of the sources under study, so its constants
    are parameters of the development, and with them
    [THERMAL_CSTATE_INVALID] of [linux/thermal.h]. [ISP_FPS_ENTRY_INVALID]
    and [ISP_FPS_TABLE_END] stand for the values the macros take when
    compared with the [unsigned int] field [fps]. *)

Class isp_cooling_h := {
  ISP_FPS_ENTRY_INVALID : Z;
  ISP_FPS_TABLE_END : Z;
  ISP_FPS_INVALID : Z;
  ISP_THROTTLING : Z;
  THERMAL_CSTATE_INVALID : Z
}.

(** [struct isp_fps_table], with the three fields the source uses. *)
Record isp_fps_table := {
  flags : Z;
  driver_data : Z;
  fps : Z
}.

Definition entry (f idx : Z) : isp_fps_table :=
  {| flags := 0; driver_data := idx; fps := f |}.

Inductive isp_cooling_property := GET_LEVEL | GET_FPS | GET_MAXL.

(** What a call of [get_property] leaves behind: [Ok v] when it returns
    0 after storing [v] through [output], [Fail r] when it returns the
    negative value [r] and stores nothing. *)
Inductive result := Ok (output : Z) | Fail (ret : Z).

(** The local variables the counting scan of [get_property] updates. *)
Record locals := {
  l_fps : Z;
  l_descend : Z;
  l_max_level : Z
}.

(** [struct isp_cooling_device] (lines 51-56) without its back pointer
    [cool_dev]. *)
Record isp_cooling_device := {
  id : Z;
  isp_state : Z;
  isp_val : Z
}.

(** One call of [blocking_notifier_call_chain] on [isp_notifier]: the
    event code and the [unsigned long] its data pointer refers to. *)
Record notification := {
  event : Z;
  payload : Z
}.

(** ** The platform configuration and the table under construction *)

(** Modelled from the spec: the platform configuration source (ECT),
    whose parser [soc/samsung/ect_parser.h] is not part of the sources. It
    is a read-only table, keyed by function name, of ranges
    [{lowerBoundTemperature, maxFrequency}]; [num_of_range] is an [int]
    and [max_frequency] an [unsigned int]. *)
Record ect_ap_thermal_range := {
  lower_bound_temperature : Z;
  max_frequency : Z
}.

Record ect_ap_thermal_function := {
  function_name : string;
  range_list : list ect_ap_thermal_range
}.

Definition num_of_range (function : ect_ap_thermal_function) : Z :=
  Z.of_nat (length (range_list function)).

(** Modelled from the spec: [ect_ap_thermal_get_function], the lookup of
    a named function in the thermal block; [None] is the NULL pointer. *)
Definition ect_ap_thermal_get_function
    (block : list ect_ap_thermal_function) (name : string)
    : option ect_ap_thermal_function :=
  List.find (fun function => String.eqb (function_name function) name) block.

(** What the construction depends on besides the arguments: whether the
    build defines [CONFIG_ECT] or [CONFIG_ECT_MODULE], what
    [ect_get_block(BLOCK_AP_THERMAL)] returns, and whether [kzalloc]
    succeeds. *)
Record platform := {
  config_ect : bool;
  ect_get_block : option (list ect_ap_thermal_function);
  kzalloc_ok : bool
}.

(** Stores and loads go through the global pointer [isp_fps_table]; one
    through a NULL pointer or outside the allocated array ends the run. *)
Inductive fault := NullDereference | OutOfBounds.

Inductive exec (A : Type) := Done (a : A) | Crash (f : fault).
Arguments Done {A} a.
Arguments Crash {A} f.

Definition exec_bind {A B : Type} (c : exec A) (k : A -> exec B) : exec B :=
  match c with
  | Done a => k a
  | Crash f => Crash f
  end.

Notation "x <- c ;; k" := (exec_bind c (fun x => k))
  (at level 100, c at next level, right associativity).

Definition in_bounds (arr : list isp_fps_table) (idx : Z) : bool :=
  (0 <=? idx) && (idx <? Z.of_nat (length arr)).

Definition store (table : option (list isp_fps_table)) (idx : Z)
    (upd : isp_fps_table -> isp_fps_table)
    : exec (option (list isp_fps_table)) :=
  match table with
  | None => Crash NullDereference
  | Some arr =>
      if in_bounds arr idx then Done (Some (alter upd (Z.to_nat idx) arr))
      else Crash OutOfBounds
  end.

Definition load (table : option (list isp_fps_table)) (idx : Z)
    : exec isp_fps_table :=
  match table with
  | None => Crash NullDereference
  | Some arr =>
      if in_bounds arr idx then
        match arr !! Z.to_nat idx with
        | Some e => Done e
        | None => Crash OutOfBounds
        end
      else Crash OutOfBounds
  end.

Definition set_flags (v : Z) (e : isp_fps_table) : isp_fps_table :=
  {| flags := v; driver_data := driver_data e; fps := fps e |}.
Definition set_driver_data (v : Z) (e : isp_fps_table) : isp_fps_table :=
  {| flags := flags e; driver_data := v; fps := fps e |}.
Definition set_fps (v : Z) (e : isp_fps_table) : isp_fps_table :=
  {| flags := flags e; driver_data := driver_data e; fps := v |}.

(** The zeroed element [kzalloc] hands out. *)
Definition zeroed : isp_fps_table := entry 0 0.

(** The variables the [for] loop of [isp_cooling_table_init] updates. *)
Record fill_state := {
  f_i : Z;
  f_last_fps : Z;
  f_count : Z;
  f_table : option (list isp_fps_table)
}.

(** One iteration (lines 558-568) on the range [range_list[i]]. *)
Definition fill_body (st : fill_state) (range : ect_ap_thermal_range)
    : exec fill_state :=
  if uint (f_last_fps st) =? max_frequency range then
    Done {| f_i := sint (f_i st + 1); f_last_fps := f_last_fps st;
            f_count := f_count st; f_table := f_table st |}
  else
    t1 <- store (f_table st) (f_count st) (set_flags 0) ;;
    t2 <- store t1 (f_count st) (set_driver_data (uint (f_count st))) ;;
    t3 <- store t2 (f_count st) (set_fps (max_frequency range)) ;;
    e <- load t3 (f_count st) ;;
    Done {| f_i := sint (f_i st + 1); f_last_fps := sint (fps e);
            f_count := sint (f_count st + 1); f_table := t3 |}.

Fixpoint fill_loop (st : fill_state) (ranges : list ect_ap_thermal_range)
    : exec fill_state :=
  match ranges with
  | [] => Done st
  | range :: rest => st' <- fill_body st range ;; fill_loop st' rest
  end.

Section WithHeader.
Context {hdr : isp_cooling_h}.

(** Modelled from the spec: the macro [isp_fps_for_each_valid_entry] of
    the missing header. The table is a sequence of entries terminated by
    a sentinel whose fps is the reserved end value; the iteration visits,
    in table order, the entries in front of the first sentinel and skips
    those whose fps is [ISP_FPS_ENTRY_INVALID]. An array that holds no
    sentinel is read to its last element. *)
Fixpoint valid_entries (table : list isp_fps_table) : list isp_fps_table :=
  match table with
  | [] => []
  | pos :: rest =>
      if fps pos =? ISP_FPS_TABLE_END then []
      else if fps pos =? ISP_FPS_ENTRY_INVALID then valid_entries rest
      else pos :: valid_entries rest
  end.

(** *** [get_property], first scan (lines 145-156) *)

Definition count_body (st : locals) (pos : isp_fps_table) : locals :=
  if l_fps st =? fps pos then st
  else
    {| l_fps := fps pos;
       l_descend :=
         if negb (l_fps st =? ISP_FPS_ENTRY_INVALID) && (l_descend st =? -1)
         then (if l_fps st >? fps pos then 1 else 0)
         else l_descend st;
       l_max_level := ulong (l_max_level st + 1) |}.

Definition count_init : locals :=
  {| l_fps := ISP_FPS_ENTRY_INVALID; l_descend := -1; l_max_level := 0 |}.

Definition count_scan (table : list isp_fps_table) : locals :=
  fold_left count_body (valid_entries table) count_init.

(** *** [get_property], second scan (lines 171-194)

    [cur] is the variable [fps], which the source does not reset between
    the two scans; [i] is the [int] position counter. Running out of
    entries is the [return -EINVAL] after the loop. *)
Fixpoint lookup_scan (property : isp_cooling_property)
    (input level max_level descend : Z) (cur i : Z)
    (entries : list isp_fps_table) : result :=
  match entries with
  | [] => Fail (- EINVAL)
  | pos :: rest =>
      if cur =? fps pos then
        lookup_scan property input level max_level descend cur i rest
      else
        let cur := fps pos in
        match property with
        | GET_LEVEL =>
            if uint input =? cur then
              Ok (uint (if descend =? 0 then ulong (max_level - ulong i)
                        else ulong i))
            else lookup_scan property input level max_level descend cur
                   (sint (i + 1)) rest
        | GET_FPS =>
            if level =? ulong i then Ok cur
            else lookup_scan property input level max_level descend cur
                   (sint (i + 1)) rest
        | GET_MAXL =>
            lookup_scan property input level max_level descend cur
              (sint (i + 1)) rest
        end
  end.

(** [get_property]. [table] is the global pointer [isp_fps_table]
    ([None] when it is NULL); [output] tells whether the pointer of that
    name is non-NULL. *)
Definition get_property (table : option (list isp_fps_table))
    (output : bool) (isp input : Z) (property : isp_cooling_property)
    : result :=
  if negb output then Fail (- EINVAL)
  else
    match table with
    | None => Fail (- EINVAL)
    | Some table =>
        let st := count_scan table in
        if l_max_level st =? 0 then Fail (- EINVAL)
        else
          let max_level := ulong (l_max_level st - 1) in
          match property with
          | GET_MAXL => Ok (uint max_level)
          | _ =>
              lookup_scan property input (ulong (sint input)) max_level
                (l_descend st) (l_fps st) 0 (valid_entries table)
          end
    end.

(** [isp_cooling_get_level]; [f] is its [unsigned int] argument. *)
Definition isp_cooling_get_level (table : option (list isp_fps_table))
    (isp f : Z) : Z :=
  match get_property table true isp (ulong f) GET_LEVEL with
  | Ok val => ulong val
  | Fail _ => THERMAL_CSTATE_INVALID
  end.

(** [isp_cooling_get_fps]; [level] is its [unsigned long] argument. *)
Definition isp_cooling_get_fps (table : option (list isp_fps_table))
    (isp level : Z) : Z :=
  match get_property table true isp level GET_FPS with
  | Ok val => ulong val
  | Fail _ => ISP_FPS_INVALID
  end.

(** [isp_get_max_state]: the pair of the value returned and of [*state]
    after the call, [state] being what the caller had stored there. *)
Definition isp_get_max_state (table : option (list isp_fps_table))
    (state : Z) : Z * Z :=
  match get_property table true 0 0 GET_MAXL with
  | Ok count => (0, if count >? 0 then ulong count else state)
  | Fail r => (r, state)
  end.

(** *** The cooling device (lines 252-328) *)

(** [isp_apply_cooling]: the value returned, the device afterwards and
    the calls made on the notifier chain. [cooling_state] is an
    [unsigned long]; the field [isp_state] is an [unsigned int]. *)
Definition isp_apply_cooling (isp_device : isp_cooling_device)
    (cooling_state : Z) : Z * isp_cooling_device * list notification :=
  if isp_state isp_device =? cooling_state then (0, isp_device, [])
  else
    (0,
     {| id := id isp_device;
        isp_state := uint cooling_state;
        isp_val := isp_val isp_device |},
     [{| event := ISP_THROTTLING; payload := cooling_state |}]).

(** [isp_set_cur_state], [devdata] being the device record. *)
Definition isp_set_cur_state (devdata : isp_cooling_device) (state : Z)
    : Z * isp_cooling_device * list notification :=
  isp_apply_cooling devdata state.

(** [isp_get_cur_state]: the value returned and [*state]. *)
Definition isp_get_cur_state (devdata : isp_cooling_device) : Z * Z :=
  (0, ulong (isp_state devdata)).

(** *** Table construction (lines 532-578) *)

(** [isp_cooling_table_init]. [old] is the global pointer
    [isp_fps_table] before the call; a run that returns yields the value
    returned and the pointer afterwards. *)
Definition isp_cooling_table_init (p : platform)
    (old : option (list isp_fps_table))
    : exec (Z * option (list isp_fps_table)) :=
  if config_ect p then
    match ect_get_block p with
    | None => Done (- ENODEV, old)
    | Some thermal_block =>
        match ect_ap_thermal_get_function thermal_block "ISP" with
        | None => Done (- ENODEV, old)
        | Some function =>
            let table :=
              if kzalloc_ok p
              then Some (replicate
                           (Z.to_nat (sint (num_of_range function + 1)))
                           zeroed)
              else None in
            st <- fill_loop {| f_i := 0; f_last_fps := -1; f_count := 0;
                               f_table := table |} (range_list function) ;;
            t <- (if f_i st =? num_of_range function
                  then store (f_table st) (f_count st)
                         (set_fps ISP_FPS_TABLE_END)
                  else Done (f_table st)) ;;
            Done (0, t)
        end
    end
  else Done (- EINVAL, old).

(** ** Vocabulary of the specification *)

(** The fps values the scans of [get_property] visit. *)
Definition fps_values (table : list isp_fps_table) : list Z :=
  map fps (valid_entries table).

End WithHeader.

(** A run of equal consecutive values collapsed to its first element;
    [prev] is the value in front of the list. *)
Fixpoint distinct_from (prev : Z) (l : list Z) : list Z :=
  match l with
  | [] => []
  | x :: rest =>
      if prev =? x then distinct_from prev rest
      else x :: distinct_from x rest
  end.

Definition distinct (l : list Z) : list Z :=
  match l with
  | [] => []
  | x :: rest => x :: distinct_from x rest
  end.

(** The direction the first two distinct values give: 1 when the first
    is the larger one, 0 when it is not, -1 when there are fewer than
    two. *)
Definition direction (d : list Z) : Z :=
  match d with
  | a :: b :: _ => if a >? b then 1 else 0
  | _ => -1
  end.

(** Position of the first occurrence of [x]. *)
Fixpoint position (x : Z) (l : list Z) : option Z :=
  match l with
  | [] => None
  | y :: rest =>
      if x =? y then Some 0 else option_map Z.succ (position x rest)
  end.

(** A table with its consecutive duplicate fps entries removed, the
    first entry of each run kept. *)
Fixpoint remove_duplicates_from (prev : Z) (table : list isp_fps_table)
    : list isp_fps_table :=
  match table with
  | [] => []
  | pos :: rest =>
      if prev =? fps pos then remove_duplicates_from prev rest
      else pos :: remove_duplicates_from (fps pos) rest
  end.

Definition remove_duplicates (table : list isp_fps_table)
    : list isp_fps_table :=
  match table with
  | [] => []
  | pos :: rest => pos :: remove_duplicates_from (fps pos) rest
  end.

(** The entries a table under construction holds for the frequencies
    [fs]: each with the next sequential index as its identifier. *)
Fixpoint kept_entries (idx : Z) (fs : list Z) : list isp_fps_table :=
  match fs with
  | [] => []
  | f :: rest => entry f idx :: kept_entries (idx + 1) rest
  end.

(** A table whose positions fit the [int] counters of the source. *)
Definition int_indexed (table : list isp_fps_table) : Prop :=
  Z.of_nat (length table) <= INT_MAX.

(** The same for the global pointer, NULL included. *)
Definition fits (table : option (list isp_fps_table)) : Prop :=
  match table with
  | None => True
  | Some t => int_indexed t
  end.

(** Values for the constants of the header, to run the model on
    concrete tables: the two sentinels are the largest values of an
    [unsigned int], as in the frequency tables of cpufreq, whose layout
    [struct isp_fps_table] follows. *)
Definition stock_header : isp_cooling_h :=
  {| ISP_FPS_ENTRY_INVALID := 4294967295;
     ISP_FPS_TABLE_END := 4294967294;
     ISP_FPS_INVALID := 18446744073709551614;
     ISP_THROTTLING := 0;
     THERMAL_CSTATE_INVALID := 18446744073709551615 |}.

(** The invariant of the fps table in the specification: its distinct
    values are strictly monotonic in one direction. *)
Definition descending (d : list Z) : Prop := Sorted Z.gt d.
Definition ascending (d : list Z) : Prop := Sorted Z.lt d.
Definition monotonic (d : list Z) : Prop := descending d \/ ascending d.

(** Tables and platforms for running the model. *)
Definition isp_function (freqs : list Z) : ect_ap_thermal_function :=
  {| function_name := "ISP";
     range_list :=
       map (fun f => {| lower_bound_temperature := 0; max_frequency := f |})
         freqs |}.

Definition stock_platform (freqs : list Z) (ok : bool) : platform :=
  {| config_ect := true;
     ect_get_block := Some [isp_function freqs];
     kzalloc_ok := ok |}.

(** ** The callers: successive requests, profile import, registration *)

(** The global state of the driver next to the device records: the
    table pointer [isp_fps_table], the ids held by [isp_idr], the counter
    [isp_dev_count] (an [unsigned int]), and the field [upper] of the
    thermal instances, by instance. *)
Record globals := {
  g_table : option (list isp_fps_table);
  g_idr : gset Z;
  g_dev_count : Z;
  g_upper : gmap Z Z
}.

(** [get_idr] (lines 75-87). [idr_alloc_ret] is what [idr_alloc] returns:
    the id it has entered into the idr, or a negative errno. The result is
    the value returned, the idr afterwards and what [*id] has received. *)
Definition get_idr (idr : gset Z) (idr_alloc_ret : Z)
    : Z * gset Z * option Z :=
  if idr_alloc_ret <? 0 then (idr_alloc_ret, idr, None)
  else (0, {[idr_alloc_ret]} ∪ idr, Some idr_alloc_ret).

(** [release_idr] (lines 94-99). *)
Definition release_idr (idr : gset Z) (id : Z) : gset Z := idr ∖ {[id]}.

(** What a registration depends on besides the global state: whether
    [kzalloc] of the device record succeeds, what [idr_alloc] returns,
    the errno of [thermal_of_cooling_device_register] when that fails, and
    the thermal zones of the instances the thermal core has bound to the
    new cooling device, in list order. *)
Record register_env := {
  r_kzalloc_ok : bool;
  r_idr_alloc : Z;
  r_thermal_error : option Z;
  r_thermal_instances : list Z
}.

Section Callers.
Context {hdr : isp_cooling_h}.

(** Successive calls of [isp_set_cur_state] with the states of
    [states], as the thermal framework issues them: the device afterwards
    and the calls made on the notifier chain, in order. *)
Fixpoint set_cur_states (devdata : isp_cooling_device) (states : list Z)
    : isp_cooling_device * list notification :=
  match states with
  | [] => (devdata, [])
  | state :: rest =>
      let '(_, devdata', sent) := isp_set_cur_state devdata state in
      let '(devdata'', sent') := set_cur_states devdata' rest in
      (devdata'', sent ++ sent')
  end.

(** The thermal core, whose header [../thermal_core.h] and string
    routines are not part of the sources, is a parameter:
    [strncasecmp], the length [THERMAL_NAME_LENGTH], the type name
    [tz->type] of a zone, and [get_thermal_instance(tz, cdev, trip)] for
    the cooling device at hand, [None] being NULL. *)
Variable strncasecmp : string -> string -> Z -> Z.
Variable THERMAL_NAME_LENGTH : Z.
Variable tz_type : Z -> string.
Variable get_thermal_instance : Z -> Z -> option Z.

(** The search of [parse_ect_cooling_level] (lines 355-361) through the
    zones of [cdev->thermal_instances]. *)
Fixpoint find_zone (tz_name : string) (thermal_instances : list Z)
    : option Z :=
  match thermal_instances with
  | [] => None
  | tz :: rest =>
      if strncasecmp tz_name (tz_type tz) THERMAL_NAME_LENGTH =? 0
      then Some tz
      else find_zone tz_name rest
  end.

(** The loop of [parse_ect_cooling_level] (lines 375-398) from trip [i]
    on. [level] is an [int]; the field [upper] is an [unsigned long], and
    so is [THERMAL_CSTATE_INVALID]. A trip without instance ends the
    loop. *)
Fixpoint ect_level_loop (table : option (list isp_fps_table)) (tz i : Z)
    (ranges : list ect_ap_thermal_range) (upper : gmap Z Z) : gmap Z Z :=
  match ranges with
  | [] => upper
  | range :: rest =>
      let freq := max_frequency range in
      match get_thermal_instance tz i with
      | None => upper
      | Some instance =>
          let max_level := (isp_get_max_state table 0).2 in
          let level := sint (isp_cooling_get_level table 0 freq) in
          let level :=
            if ulong level =? THERMAL_CSTATE_INVALID then sint max_level
            else level in
          ect_level_loop table tz (sint (i + 1)) rest
            (<[instance := ulong level]> upper)
      end
  end.

(** [parse_ect_cooling_level] (lines 343-401): the value returned and
    the fields [upper] afterwards. *)
Definition parse_ect_cooling_level (p : platform)
    (table : option (list isp_fps_table)) (thermal_instances : list Z)
    (tz_name : string) (upper : gmap Z Z) : Z * gmap Z Z :=
  match find_zone tz_name thermal_instances with
  | None => (0, upper)
  | Some tz =>
      match ect_get_block p with
      | None => (0, upper)
      | Some thermal_block =>
          match ect_ap_thermal_get_function thermal_block tz_name with
          | None => (0, upper)
          | Some function =>
              (0, ect_level_loop table tz 0 (range_list function) upper)
          end
      end
  end.

(** The cap the profile import means for a range of frequency [freq]:
    the level of that frequency, or the maximum level when the frequency
    has no level. *)
Definition expected_upper (table : option (list isp_fps_table)) (freq : Z)
    : Z :=
  match get_property table true 0 (ulong freq) GET_LEVEL with
  | Ok level => level
  | Fail _ => (isp_get_max_state table 0).2
  end.

(** [__isp_cooling_register] (lines 416-458): [inl e] is [ERR_PTR(e)],
    [inr dev] the cooling device whose [devdata] is [dev], a record that
    [kzalloc] has zeroed. *)
Definition isp_cooling_register_helper (p : platform) (env : register_env)
    (g : globals) : (Z + isp_cooling_device) * globals :=
  if r_kzalloc_ok env then
    let '(ret, idr, id_written) := get_idr (g_idr g) (r_idr_alloc env) in
    let isp_dev :=
      {| id := default 0 id_written; isp_state := 0; isp_val := 0 |} in
    if negb (ret =? 0) then
      (inl (- EINVAL),
       {| g_table := g_table g; g_idr := idr;
          g_dev_count := g_dev_count g; g_upper := g_upper g |})
    else
      match r_thermal_error env with
      | Some e =>
          (inl e,
           {| g_table := g_table g; g_idr := release_idr idr (id isp_dev);
              g_dev_count := g_dev_count g; g_upper := g_upper g |})
      | None =>
          let upper :=
            (parse_ect_cooling_level p (g_table g)
               (r_thermal_instances env) "ISP" (g_upper g)).2 in
          (inr isp_dev,
           {| g_table := g_table g; g_idr := idr;
              g_dev_count := uint (g_dev_count g + 1);
              g_upper := upper |})
      end
  else (inl (- ENOMEM), g).

(** [isp_cooling_register] (lines 471-475). *)
Definition isp_cooling_register (p : platform) (env : register_env)
    (g : globals) : (Z + isp_cooling_device) * globals :=
  isp_cooling_register_helper p env g.


(** [isp_cooling_unregister] (lines 508-523); [cdev] is the device
    record behind the pointer, [None] being NULL. *)
Definition isp_cooling_unregister (cdev : option isp_cooling_device)
    (g : globals) : globals :=
  match cdev with
  | None => g
  | Some isp_dev =>
      {| g_table := g_table g;
         g_idr := release_idr (g_idr g) (id isp_dev);
         g_dev_count := uint (g_dev_count g - 1);
         g_upper := g_upper g |}
  end.


End Callers.

(** A thermal core for running the model: names are equal when they
    are the same string, every zone is called "ISP", and the instance of
    trip [i] has the handle [i]. *)
Definition same_name (a b : string) (n : Z) : Z :=
  if String.eqb a b then 0 else 1.

Definition isp_zone (tz : Z) : string := "ISP".

Definition instance_per_trip (tz trip : Z) : option Z := Some trip.

Definition stock_table : option (list isp_fps_table) :=
  Some [entry 30 0; entry 15 1; entry 7 2; entry 4294967294 0].

Definition fresh_globals (table : option (list isp_fps_table)) : globals :=
  {| g_table := table; g_idr := ∅; g_dev_count := 0; g_upper := ∅ |}.

Definition stock_env (ok : bool) (error : option Z) : register_env :=
  {| r_kzalloc_ok := ok; r_idr_alloc := 0; r_thermal_error := error;
     r_thermal_instances := [1] |}.

(** * Properties *)

(** ** Conversions of values that fit *)

Lemma uint_small z : 0 <= z <= UINT_MAX -> uint z = z.
Proof.
  intros H. unfold uint. apply Z.mod_small. unfold UINT_MAX in H. lia.
Qed.

Lemma ulong_small z : 0 <= z < 2 ^ 64 -> ulong z = z.
Proof. intros H. unfold ulong. now apply Z.mod_small. Qed.

Lemma sint_small z : - 2 ^ 31 <= z <= INT_MAX -> sint z = z.
Proof.
  intros H. unfold sint, INT_MAX in *.
  rewrite Z.mod_small by lia. lia.
Qed.

Lemma ulong_range z : 0 <= ulong z < 2 ^ 64.
Proof. unfold ulong. apply Z.mod_pos_bound. lia. Qed.

Lemma sint_range z : - 2 ^ 31 <= sint z <= INT_MAX.
Proof.
  unfold sint, INT_MAX.
  pose proof (Z.mod_pos_bound (z + 2 ^ 31) (2 ^ 32) ltac:(lia)). lia.
Qed.

(** A negative [int] converts to an [unsigned long] above every [int]. *)
Lemma ulong_negative z : - 2 ^ 31 <= z < 0 -> INT_MAX < ulong z.
Proof.
  intros H. unfold ulong, INT_MAX.
  replace z with (z + 2 ^ 64 + (-1) * 2 ^ 64) by lia.
  rewrite Z.mod_add by lia. rewrite Z.mod_small; lia.
Qed.

Lemma uint_sint z : 0 <= z <= UINT_MAX -> uint (sint z) = z.
Proof.
  unfold uint, sint, UINT_MAX. intros H.
  change (2 ^ 32) with 4294967296. change (2 ^ 31) with 2147483648.
  Z.div_mod_to_equations. lia.
Qed.

(** ** Lists of fps values *)

Lemma distinct_from_length prev l :
  (length (distinct_from prev l) <= length l)%nat.
Proof.
  revert prev. induction l as [|x l IH]; intros prev; simpl; [lia|].
  destruct (prev =? x); [specialize (IH prev)|specialize (IH x)]; simpl; lia.
Qed.

Lemma distinct_length l : (length (distinct l) <= length l)%nat.
Proof.
  destruct l as [|x l]; simpl; [lia|].
  pose proof (distinct_from_length x l). lia.
Qed.

(** In front of a list that does not start with [prev], collapsing from
    [prev] is collapsing the list on its own. *)
Lemma distinct_from_fresh prev l :
  head l <> Some prev -> distinct_from prev l = distinct l.
Proof.
  destruct l as [|x l]; simpl; [reflexivity|]. intros H.
  destruct (Z.eqb_spec prev x) as [->|]; [congruence|reflexivity].
Qed.

Lemma distinct_from_subset prev l x :
  x ∈ distinct_from prev l -> x ∈ l.
Proof.
  revert prev. induction l as [|y l IH]; intros prev; simpl.
  - intros H. exact H.
  - destruct (prev =? y).
    + intros H. right. eauto.
    + rewrite elem_of_cons. intros [->|H]; [left|right; eauto].
Qed.

Lemma distinct_from_elem prev l x :
  x ∈ l -> x <> prev -> x ∈ distinct_from prev l.
Proof.
  revert prev. induction l as [|y l IH]; intros prev; simpl.
  - intros H; inversion H.
  - rewrite elem_of_cons. intros [->|H] Hne.
    + destruct (Z.eqb_spec prev y); [congruence|left].
    + destruct (Z.eqb_spec prev y) as [->|]; [now apply IH|].
      destruct (Z.eq_dec x y) as [->|]; [left|right; now apply IH].
Qed.

Lemma distinct_elem l x : x ∈ distinct l <-> x ∈ l.
Proof.
  destruct l as [|y l]; simpl; [reflexivity|].
  rewrite !elem_of_cons. split.
  - intros [->|H]; [now left|right; eauto using distinct_from_subset].
  - intros [->|H]; [now left|].
    destruct (Z.eq_dec x y) as [->|]; [now left|right].
    now apply distinct_from_elem.
Qed.

Lemma last_shift (x : Z) l d : List.last (x :: l) d = List.last l x.
Proof.
  revert x d. induction l as [|y l IH]; intros x d; [reflexivity|].
  change (List.last (x :: y :: l) d) with (List.last (y :: l) d).
  now rewrite !(IH y).
Qed.

(** The value the duplicate tracker holds after a scan that started
    with [prev]. *)
Lemma last_distinct_from prev l :
  List.last (distinct_from prev l) prev = List.last l prev.
Proof.
  revert prev. induction l as [|x l IH]; intros prev; [reflexivity|].
  cbn [distinct_from]. destruct (Z.eqb_spec prev x) as [->|Hne].
  - now rewrite IH, last_shift.
  - now rewrite !last_shift, IH.
Qed.

Lemma last_elem (l : list Z) d : l <> [] -> List.last l d ∈ l.
Proof.
  induction l as [|x l IH]; [congruence|]. intros _.
  destruct l as [|y l]; [left|]. right. now apply IH.
Qed.

Lemma last_default (l : list Z) d : l <> [] -> last l = Some (List.last l d).
Proof.
  induction l as [|x l IH]; [congruence|]. intros _.
  destruct l as [|y l]; [reflexivity|].
  change (last (x :: y :: l)) with (last (y :: l)).
  change (List.last (x :: y :: l) d) with (List.last (y :: l) d).
  now apply IH.
Qed.

(** When the first and the last value differ, a scan that starts with
    the last value as its tracker skips nothing more than a fresh one. *)
Lemma distinct_from_last l d :
  head (distinct l) <> last (distinct l) ->
  distinct_from (List.last l d) l = distinct l.
Proof.
  destruct l as [|x l]; [reflexivity|]. intros H.
  apply distinct_from_fresh. rewrite last_shift. cbn [distinct head] in *.
  rewrite (last_default _ x) in H by discriminate.
  rewrite last_shift, last_distinct_from in H. simpl. congruence.
Qed.

Section Sorted_lists.
Variable R : Z -> Z -> Prop.
Hypothesis R_irrefl : forall x, ~ R x x.
Hypothesis R_trans : forall x y z, R x y -> R y z -> R x z.

Lemma sorted_above x l y : Sorted R (x :: l) -> y ∈ l -> R x y.
Proof.
  intros Hs Hy. apply Sorted_extends in Hs; [|exact R_trans].
  rewrite List.Forall_forall in Hs. apply Hs. now apply list_elem_of_In.
Qed.

(** In a strictly sorted list a value stands at one position only. *)
Lemma position_sorted d (i : nat) x :
  Sorted R d -> d !! i = Some x -> position x d = Some (Z.of_nat i).
Proof.
  revert i. induction d as [|y l IH]; intros i Hs Hi; [discriminate|].
  destruct i as [|i]; cbn [position].
  - simpl in Hi. injection Hi as ->. now rewrite Z.eqb_refl.
  - simpl in Hi. destruct (Z.eqb_spec x y) as [->|_].
    + exfalso. apply (R_irrefl y). eapply sorted_above; [exact Hs|].
      eapply list_elem_of_lookup_2; exact Hi.
    + rewrite (IH i) by (try exact Hi; now inversion Hs).
      simpl. f_equal. lia.
Qed.

Lemma sorted_head_last d :
  Sorted R d -> (2 <= length d)%nat -> head d <> last d.
Proof.
  intros Hs Hlen. destruct d as [|x [|y l]]; simpl in Hlen; try lia.
  rewrite (last_default _ x) by discriminate. simpl head.
  intros [= E]. apply (R_irrefl x). eapply sorted_above; [exact Hs|].
  destruct l as [|z l]; [rewrite E; left|].
  right. rewrite E. now apply last_elem.
Qed.

End Sorted_lists.

Lemma position_descending d (i : nat) x :
  descending d -> d !! i = Some x -> position x d = Some (Z.of_nat i).
Proof. apply position_sorted; intros; lia. Qed.

Lemma position_ascending d (i : nat) x :
  ascending d -> d !! i = Some x -> position x d = Some (Z.of_nat i).
Proof. apply position_sorted; intros; lia. Qed.

Lemma monotonic_head_last d :
  monotonic d -> (2 <= length d)%nat -> head d <> last d.
Proof.
  intros [H|H]; eapply sorted_head_last; try exact H; intros; lia.
Qed.

Lemma distinct_from_le_distinct prev l :
  (length (distinct_from prev l) <= length (distinct l))%nat.
Proof.
  destruct l as [|x l]; [simpl; lia|]. cbn [distinct_from distinct length].
  destruct (Z.eqb_spec prev x) as [->|]; simpl; lia.
Qed.

Lemma distinct_nil l : distinct l = [] -> l = [].
Proof. destruct l; [reflexivity|discriminate]. Qed.

Lemma position_range x l k :
  position x l = Some k -> 0 <= k < Z.of_nat (length l).
Proof.
  revert k. induction l as [|y l IH]; intros k; [discriminate|].
  cbn [position length]. destruct (x =? y).
  - intros [= <-]. lia.
  - destruct (position x l) as [k'|]; [|discriminate].
    intros [= <-]. specialize (IH k' eq_refl). lia.
Qed.

Lemma direction_two d :
  direction d = 1 \/ direction d = 0 -> (2 <= length d)%nat.
Proof.
  destruct d as [|a [|b d]]; simpl; intros [H|H]; try discriminate; lia.
Qed.

Section Scans.
Context {hdr : isp_cooling_h}.

(** ** The iteration over valid entries *)

Lemma valid_entries_valid table :
  Forall (fun v => v <> ISP_FPS_ENTRY_INVALID) (fps_values table).
Proof.
  unfold fps_values. induction table as [|pos rest IH]; simpl; [constructor|].
  destruct (fps pos =? ISP_FPS_TABLE_END); [constructor|].
  destruct (Z.eqb_spec (fps pos) ISP_FPS_ENTRY_INVALID); [assumption|].
  now constructor.
Qed.

Lemma valid_entries_length table :
  (length (valid_entries table) <= length table)%nat.
Proof.
  induction table as [|pos rest IH]; simpl; [lia|].
  destruct (fps pos =? ISP_FPS_TABLE_END); [simpl; lia|].
  destruct (fps pos =? ISP_FPS_ENTRY_INVALID); simpl; lia.
Qed.

Lemma distinct_fps_values table :
  distinct_from ISP_FPS_ENTRY_INVALID (fps_values table)
  = distinct (fps_values table).
Proof.
  apply distinct_from_fresh.
  pose proof (valid_entries_valid table) as H.
  destruct (fps_values table); [discriminate|].
  inversion H; subst. simpl. congruence.
Qed.

(** ** The counting scan *)

Lemma count_fold_fps entries st :
  l_fps (fold_left count_body entries st)
  = List.last (map fps entries) (l_fps st).
Proof.
  revert st. induction entries as [|pos rest IH]; intros st; [reflexivity|].
  cbn [fold_left map]. rewrite IH, last_shift. unfold count_body.
  destruct (Z.eqb_spec (l_fps st) (fps pos)) as [E|]; simpl.
  - rewrite E. now destruct (map fps rest).
  - reflexivity.
Qed.

Lemma count_fold_max_level entries st :
  0 <= l_max_level st < 2 ^ 64 ->
  l_max_level (fold_left count_body entries st)
  = ulong (l_max_level st
           + Z.of_nat (length (distinct_from (l_fps st) (map fps entries)))).
Proof.
  revert st. induction entries as [|pos rest IH]; intros st Hst.
  - simpl. rewrite Z.add_0_r. symmetry. now apply ulong_small.
  - cbn [fold_left map distinct_from]. unfold count_body at 2.
    destruct (Z.eqb_spec (l_fps st) (fps pos)) as [E|].
    + now apply IH.
    + rewrite IH by (simpl; apply ulong_range). simpl l_max_level.
      simpl l_fps. cbn [length]. unfold ulong.
      rewrite Zplus_mod_idemp_l. f_equal. lia.
Qed.

Lemma count_fold_descend_kept entries st :
  l_descend st <> -1 ->
  l_descend (fold_left count_body entries st) = l_descend st.
Proof.
  revert st. induction entries as [|pos rest IH]; intros st Hst; [reflexivity|].
  cbn [fold_left]. unfold count_body at 2.
  destruct (l_fps st =? fps pos); [now apply IH|].
  rewrite IH; simpl.
  - destruct (Z.eqb_spec (l_descend st) (-1)); [contradiction|].
    now rewrite andb_false_r.
  - destruct (Z.eqb_spec (l_descend st) (-1)); [contradiction|].
    now rewrite andb_false_r.
Qed.

Lemma count_fold_descend_second entries st :
  l_descend st = -1 -> l_fps st <> ISP_FPS_ENTRY_INVALID ->
  l_descend (fold_left count_body entries st)
  = match distinct_from (l_fps st) (map fps entries) with
    | [] => -1
    | w :: _ => if l_fps st >? w then 1 else 0
    end.
Proof.
  revert st. induction entries as [|pos rest IH]; intros st Hd Hf.
  - exact Hd.
  - cbn [fold_left map distinct_from]. unfold count_body at 2.
    destruct (Z.eqb_spec (l_fps st) (fps pos)) as [E|]; [now apply IH|].
    rewrite count_fold_descend_kept; simpl; rewrite Hd;
      destruct (Z.eqb_spec (l_fps st) ISP_FPS_ENTRY_INVALID);
      try contradiction; simpl.
    + reflexivity.
    + now destruct (l_fps st >? fps pos).
Qed.

Lemma count_scan_descend table :
  l_descend (count_scan table) = direction (distinct (fps_values table)).
Proof.
  unfold count_scan, fps_values.
  pose proof (valid_entries_valid table) as Hv. unfold fps_values in Hv.
  destruct (valid_entries table) as [|pos rest]; [reflexivity|].
  inversion Hv as [|? ? Hpos _]; subst.
  cbn [fold_left map distinct]. unfold count_body at 2. simpl l_fps.
  destruct (Z.eqb_spec ISP_FPS_ENTRY_INVALID (fps pos)) as [E|_];
    [now rewrite E in Hpos|].
  rewrite Z.eqb_refl. simpl negb. simpl andb. cbv iota.
  rewrite count_fold_descend_second; [|reflexivity|exact Hpos].
  simpl. now destruct (distinct_from (fps pos) (map fps rest)).
Qed.

Lemma count_scan_fps table :
  l_fps (count_scan table)
  = List.last (fps_values table) ISP_FPS_ENTRY_INVALID.
Proof. unfold count_scan. now rewrite count_fold_fps. Qed.

Lemma count_scan_max_level table :
  l_max_level (count_scan table)
  = ulong (Z.of_nat (length (distinct (fps_values table)))).
Proof.
  unfold count_scan. rewrite count_fold_max_level by (simpl; lia).
  simpl. now rewrite <- distinct_fps_values.
Qed.

(** ** The translation scan *)

Section Lookup.
Variables input level max_level descend : Z.

(** [levelToFps]: the scan returns the value at position [level - i] of
    the values it does not skip. *)
Lemma lookup_scan_fps entries cur i :
  0 <= i -> i + Z.of_nat (length entries) <= INT_MAX ->
  lookup_scan GET_FPS input level max_level descend cur i entries
  = match (if i <=? level
           then distinct_from cur (map fps entries) !! Z.to_nat (level - i)
           else None) with
    | Some f => Ok f
    | None => Fail (- EINVAL)
    end.
Proof.
  revert cur i. induction entries as [|pos rest IH]; intros cur i Hi Hlen.
  - simpl. now destruct (i <=? level).
  - cbn [lookup_scan map distinct_from]. cbn [length] in Hlen.
    destruct (Z.eqb_spec cur (fps pos)) as [E|_]; [apply IH; lia|].
    rewrite (ulong_small i) by (unfold INT_MAX in Hlen; lia).
    destruct (Z.eqb_spec level i) as [->|Hne].
    + rewrite Z.leb_refl, Z.sub_diag. reflexivity.
    + rewrite (sint_small (i + 1)) by (unfold INT_MAX in *; lia).
      rewrite IH by lia.
      destruct (Z.leb_spec (i + 1) level), (Z.leb_spec i level); try lia;
        [|reflexivity].
      replace (Z.to_nat (level - i)) with (S (Z.to_nat (level - (i + 1))))
        by lia.
      reflexivity.
Qed.

(** [fpsToLevel]: the scan returns at the first value equal to the
    requested one, at position [i + k]. *)
Lemma lookup_scan_level entries cur i :
  0 <= i -> i + Z.of_nat (length entries) <= INT_MAX ->
  lookup_scan GET_LEVEL input level max_level descend cur i entries
  = match position (uint input) (distinct_from cur (map fps entries)) with
    | Some k =>
        Ok (uint (if descend =? 0 then ulong (max_level - (i + k))
                  else i + k))
    | None => Fail (- EINVAL)
    end.
Proof.
  revert cur i. induction entries as [|pos rest IH]; intros cur i Hi Hlen.
  - reflexivity.
  - cbn [lookup_scan map distinct_from]. cbn [length] in Hlen.
    destruct (Z.eqb_spec cur (fps pos)) as [E|_]; [apply IH; lia|].
    cbn [position].
    rewrite (ulong_small i) by (unfold INT_MAX in Hlen; lia).
    destruct (uint input =? fps pos).
    + now rewrite Z.add_0_r.
    + rewrite (sint_small (i + 1)) by (unfold INT_MAX in *; lia).
      rewrite IH by lia.
      destruct (position (uint input) (distinct_from (fps pos) (map fps rest)));
        simpl; [|reflexivity].
      now replace (i + 1 + z) with (i + Z.succ z) by lia.
Qed.

(** A requested fps that no entry holds is not found, wherever the
    scan starts. *)
Lemma lookup_scan_level_absent entries cur i :
  uint input ∉ map fps entries ->
  lookup_scan GET_LEVEL input level max_level descend cur i entries
  = Fail (- EINVAL).
Proof.
  revert cur i. induction entries as [|pos rest IH]; intros cur i Hx;
    [reflexivity|].
  cbn [lookup_scan]. cbn [map] in Hx. rewrite not_elem_of_cons in Hx.
  destruct Hx as [Hne Hx].
  destruct (cur =? fps pos); [now apply IH|].
  destruct (Z.eqb_spec (uint input) (fps pos)); [contradiction|now apply IH].
Qed.

(** A scan whose tracker already holds the only value of the entries
    skips them all. *)
Lemma lookup_scan_all_skipped property entries cur i :
  Forall (fun pos => fps pos = cur) entries ->
  lookup_scan property input level max_level descend cur i entries
  = Fail (- EINVAL).
Proof.
  induction 1 as [|pos rest Hpos _ IH]; [reflexivity|].
  cbn [lookup_scan]. rewrite Hpos, Z.eqb_refl. exact IH.
Qed.

(** Both scans skip what [remove_duplicates_from] drops. *)
Lemma lookup_scan_collapse property entries cur i :
  lookup_scan property input level max_level descend cur i
    (remove_duplicates_from cur entries)
  = lookup_scan property input level max_level descend cur i entries.
Proof.
  revert cur i. induction entries as [|pos rest IH]; intros cur i;
    [reflexivity|].
  cbn [remove_duplicates_from lookup_scan].
  destruct (Z.eqb_spec cur (fps pos)) as [E|Hne]; [apply IH|].
  cbn [lookup_scan]. destruct (Z.eqb_spec cur (fps pos)); [contradiction|].
  destruct property; try destruct (uint input =? fps pos);
    try destruct (level =? ulong i); try reflexivity; apply IH.
Qed.

End Lookup.

Lemma count_fold_collapse entries st :
  fold_left count_body (remove_duplicates_from (l_fps st) entries) st
  = fold_left count_body entries st.
Proof.
  revert st. induction entries as [|pos rest IH]; intros st; [reflexivity|].
  cbn [remove_duplicates_from fold_left]. unfold count_body at 3.
  destruct (Z.eqb_spec (l_fps st) (fps pos)) as [E|Hne]; [apply IH|].
  cbn [fold_left]. unfold count_body at 2.
  destruct (Z.eqb_spec (l_fps st) (fps pos)); [contradiction|].
  apply (IH {| l_fps := fps pos; l_descend := _; l_max_level := _ |}).
Qed.

(** ** Duplicates in the table *)

Lemma valid_remove_duplicates_from table p q :
  q <> ISP_FPS_TABLE_END -> q = p \/ q = ISP_FPS_ENTRY_INVALID ->
  remove_duplicates_from p (valid_entries (remove_duplicates_from q table))
  = remove_duplicates_from p (valid_entries table).
Proof.
  revert p q. induction table as [|pos rest IH]; intros p q Hend Hq;
    [reflexivity|].
  cbn [remove_duplicates_from valid_entries].
  destruct (Z.eqb_spec q (fps pos)) as [E|Hne].
  - rewrite IH by assumption. rewrite <- E.
    destruct (Z.eqb_spec q ISP_FPS_TABLE_END); [contradiction|].
    destruct (Z.eqb_spec q ISP_FPS_ENTRY_INVALID) as [|Hv]; [reflexivity|].
    destruct Hq as [->|]; [|contradiction].
    cbn [remove_duplicates_from]. rewrite <- E. now rewrite Z.eqb_refl.
  - cbn [valid_entries].
    destruct (Z.eqb_spec (fps pos) ISP_FPS_TABLE_END); [reflexivity|].
    destruct (Z.eqb_spec (fps pos) ISP_FPS_ENTRY_INVALID) as [Ei|].
    + apply IH; [assumption|now right].
    + cbn [remove_duplicates_from].
      destruct (Z.eqb_spec p (fps pos)) as [->|].
      * apply IH; [assumption|now left].
      * f_equal. apply IH; [assumption|now left].
Qed.

Lemma valid_remove_duplicates table p :
  remove_duplicates_from p (valid_entries (remove_duplicates table))
  = remove_duplicates_from p (valid_entries table).
Proof.
  destruct table as [|pos rest]; [reflexivity|].
  cbn [remove_duplicates valid_entries].
  destruct (Z.eqb_spec (fps pos) ISP_FPS_TABLE_END); [reflexivity|].
  destruct (Z.eqb_spec (fps pos) ISP_FPS_ENTRY_INVALID) as [Ei|].
  - apply valid_remove_duplicates_from; [assumption|now right].
  - cbn [remove_duplicates_from].
    destruct (Z.eqb_spec p (fps pos)) as [->|].
    + apply valid_remove_duplicates_from; [assumption|now left].
    + f_equal. apply valid_remove_duplicates_from; [assumption|now left].
Qed.

End Scans.

(** * The translation engine: [get_property] *)

Section Translation.
Context {hdr : isp_cooling_h}.

Lemma distinct_count_bound table :
  int_indexed table ->
  Z.of_nat (length (distinct (fps_values table))) <= INT_MAX.
Proof.
  unfold int_indexed, fps_values. intros H.
  pose proof (distinct_length (map fps (valid_entries table))) as H1.
  rewrite length_map in H1. pose proof (valid_entries_length table). lia.
Qed.

(** [get_property] on a table with at least one valid entry: the
    maximum level, or the translation scan started with the tracker the
    counting scan left behind. *)
Lemma get_property_scan table isp input property :
  int_indexed table -> distinct (fps_values table) <> [] ->
  let d := distinct (fps_values table) in
  get_property (Some table) true isp input property
  = match property with
    | GET_MAXL => Ok (Z.of_nat (length d) - 1)
    | _ =>
        lookup_scan property input (ulong (sint input))
          (Z.of_nat (length d) - 1) (direction d)
          (List.last (fps_values table) ISP_FPS_ENTRY_INVALID) 0
          (valid_entries table)
    end.
Proof.
  intros Hint Hd. cbv zeta. unfold get_property. cbn [negb].
  rewrite count_scan_max_level, count_scan_descend, count_scan_fps.
  pose proof (distinct_count_bound table Hint) as Hb.
  destruct (distinct (fps_values table)) as [|x0 d0] eqn:Ed; [congruence|].
  set (d := x0 :: d0) in *.
  assert (0 < Z.of_nat (length d)) by (simpl; lia).
  unfold INT_MAX in Hb.
  rewrite (ulong_small (Z.of_nat (length d))) by lia.
  destruct (Z.eqb_spec (Z.of_nat (length d)) 0); [lia|].
  rewrite (ulong_small (Z.of_nat (length d) - 1)) by lia.
  destruct property; try reflexivity.
  now rewrite uint_small by (unfold UINT_MAX; lia).
Qed.

Lemma get_property_no_valid_entry table output isp x property :
  valid_entries table = [] ->
  get_property (Some table) output isp x property = Fail (- EINVAL).
Proof.
  intros Ht. unfold get_property, count_scan. rewrite Ht.
  now destruct output.
Qed.

(** C6: with the table pointer NULL, or a table without a valid entry,
    each of the three queries returns -EINVAL, whatever the input. *)
Theorem empty_table_fails table output isp x property :
  table = None \/ (exists t, table = Some t /\ valid_entries t = []) ->
  get_property table output isp x property = Fail (- EINVAL).
Proof.
  intros [->|(t & -> & Ht)].
  - unfold get_property. now destruct output.
  - now apply get_property_no_valid_entry.
Qed.

(** A table with one distinct fps value holds that value in every
    valid entry. *)
Lemma one_distinct_value l v :
  distinct l = [v] -> Forall (fun x => x = v) l.
Proof.
  destruct l as [|x l]; [discriminate|]. cbn [distinct]. intros [= Hx H].
  constructor; [exact Hx|]. rewrite Hx in H. clear Hx.
  induction l as [|y l IH]; [constructor|]. cbn [distinct_from] in H.
  destruct (Z.eqb_spec v y) as [Hy|]; [|discriminate].
  constructor; [now symmetry|now apply IH].
Qed.

(** C10: on a table with exactly one distinct fps value [v] the maximum
    level is 0, the counting scan leaves [v] in the duplicate tracker,
    and both translations return -EINVAL for every input, [v] and level
    0 included: the translation scan skips every entry as a duplicate. *)
Theorem single_value_table table v isp input :
  distinct (fps_values table) = [v] ->
  get_property (Some table) true isp input GET_MAXL = Ok 0
  /\ l_fps (count_scan table) = v
  /\ get_property (Some table) true isp v GET_LEVEL = Fail (- EINVAL)
  /\ get_property (Some table) true isp 0 GET_FPS = Fail (- EINVAL)
  /\ get_property (Some table) true isp input GET_LEVEL = Fail (- EINVAL)
  /\ get_property (Some table) true isp input GET_FPS = Fail (- EINVAL).
Proof.
  intros Hd. pose proof (one_distinct_value _ _ Hd) as Hall.
  assert (Hcur : l_fps (count_scan table) = v).
  { rewrite count_scan_fps. unfold fps_values in *.
    destruct (valid_entries table) as [|pos rest]; [discriminate|].
    cbn [map] in *. rewrite last_shift.
    inversion Hall as [|? ? -> Hrest]; subst.
    clear -Hrest. induction rest as [|q rest IH]; [reflexivity|].
    cbn [map] in *. inversion Hrest as [|? ? -> Hr]; subst.
    rewrite last_shift. now apply IH. }
  assert (Hskip : forall property x level ml ds,
    lookup_scan property x level ml ds v 0 (valid_entries table)
    = Fail (- EINVAL)).
  { intros. apply lookup_scan_all_skipped. unfold fps_values in Hall.
    now rewrite Forall_map in Hall. }
  unfold get_property. cbn [negb].
  rewrite count_scan_max_level, Hd, Hcur. cbn.
  repeat split; try reflexivity; apply Hskip.
Qed.

(** C7: every query returns on a table what it returns on the table
    with its consecutive duplicate fps entries removed. *)
Theorem duplicates_do_not_matter table output isp input property :
  get_property (remove_duplicates <$> table) output isp input property
  = get_property table output isp input property.
Proof.
  destruct table as [table|]; [|reflexivity]. cbn [fmap option_fmap option_map].
  assert (Hc : count_scan (remove_duplicates table) = count_scan table).
  { unfold count_scan.
    rewrite <- (count_fold_collapse (valid_entries table)).
    rewrite <- (count_fold_collapse (valid_entries (remove_duplicates table))).
    now rewrite valid_remove_duplicates. }
  unfold get_property. rewrite Hc.
  destruct (negb output); [reflexivity|].
  destruct (l_max_level (count_scan table) =? 0); [reflexivity|].
  destruct property; try reflexivity;
    rewrite <- (lookup_scan_collapse _ _ _ _ _ (valid_entries table));
    rewrite <- (lookup_scan_collapse _ _ _ _ _
                  (valid_entries (remove_duplicates table)));
    now rewrite valid_remove_duplicates.
Qed.

(** ** Translation on tables with at least two levels *)

Lemma get_fps_out_of_range table isp level :
  int_indexed table ->
  sint level < 0
  \/ Z.of_nat (length (distinct (fps_values table))) - 1 < sint level ->
  get_property (Some table) true isp level GET_FPS = Fail (- EINVAL).
Proof.
  intros Hint Hlevel.
  destruct (distinct (fps_values table)) as [|x0 d0] eqn:Ed.
  - apply get_property_no_valid_entry.
    apply distinct_nil in Ed. unfold fps_values in Ed.
    now destruct (valid_entries table).
  - rewrite get_property_scan by (try assumption; congruence).
    pose proof (valid_entries_length table) as Hv. unfold int_indexed in Hint.
    rewrite lookup_scan_fps by lia.
    pose proof (distinct_from_le_distinct
                  (List.last (fps_values table) ISP_FPS_ENTRY_INVALID)
                  (fps_values table)) as Hle.
    pose proof (distinct_count_bound table Hint) as Hb.
    rewrite Ed in Hle, Hb. pose proof (sint_range level) as Hr.
    fold (fps_values table).
    destruct (0 <=? ulong (sint level)); [|reflexivity].
    rewrite lookup_ge_None_2; [reflexivity|].
    destruct Hlevel as [Hneg|Hbig].
    + pose proof (ulong_negative (sint level) ltac:(lia)). lia.
    + rewrite ulong_small by (unfold INT_MAX in *; lia). lia.
Qed.

Lemma get_fps_at table isp level f :
  int_indexed table ->
  let d := distinct (fps_values table) in
  head d <> last d -> 0 <= sint level ->
  d !! Z.to_nat (sint level) = Some f ->
  get_property (Some table) true isp level GET_FPS = Ok f.
Proof.
  intros Hint d Hhl Hpos Hf.
  rewrite get_property_scan by (try assumption; intros E; fold d in E;
                                now rewrite E in Hf).
  pose proof (valid_entries_length table) as Hv. unfold int_indexed in Hint.
  rewrite lookup_scan_fps by lia. fold (fps_values table).
  rewrite distinct_from_last by exact Hhl. fold d.
  pose proof (sint_range level) as Hr.
  rewrite ulong_small by (unfold INT_MAX in *; lia).
  destruct (Z.leb_spec 0 (sint level)); [|lia].
  now rewrite Z.sub_0_r, Hf.
Qed.

Lemma get_level_absent table isp x :
  is_uint x -> x ∉ distinct (fps_values table) ->
  get_property (Some table) true isp x GET_LEVEL = Fail (- EINVAL).
Proof.
  intros Hx Hd. unfold get_property. cbn [negb].
  destruct (l_max_level (count_scan table) =? 0); [reflexivity|].
  apply lookup_scan_level_absent. rewrite uint_small by exact Hx.
  now rewrite distinct_elem in Hd.
Qed.

Lemma get_level_at table isp x k :
  int_indexed table -> is_uint x ->
  let d := distinct (fps_values table) in
  head d <> last d -> position x d = Some k ->
  get_property (Some table) true isp x GET_LEVEL
  = Ok (if direction d =? 0 then Z.of_nat (length d) - 1 - k else k).
Proof.
  intros Hint Hx d Hhl Hk.
  rewrite get_property_scan by (try assumption; intros E; fold d in E;
                                now rewrite E in Hk).
  pose proof (valid_entries_length table) as Hv.
  pose proof (distinct_count_bound table Hint) as Hb. fold d in Hb.
  unfold int_indexed in Hint.
  rewrite lookup_scan_level by lia. fold (fps_values table).
  rewrite distinct_from_last by exact Hhl. fold d.
  rewrite (uint_small x) by exact Hx. rewrite Hk.
  apply position_range in Hk. unfold INT_MAX in *. f_equal.
  destruct (direction d =? 0).
  - rewrite ulong_small by lia. rewrite uint_small by (unfold UINT_MAX; lia).
    lia.
  - rewrite uint_small by (unfold UINT_MAX; lia). lia.
Qed.

(** C3: the direction flag of the counting scan is the comparison of
    the first two distinct fps values, -1 when there are fewer than two;
    a requested fps that no distinct entry holds makes [fpsToLevel]
    return -EINVAL; on a table whose distinct values are strictly
    monotonic, a requested fps found at position [i] is translated to
    [i] when the flag says descending and to [maxLevel - i] when it says
    ascending. *)
Theorem fps_to_level table isp x (i : nat) :
  let d := distinct (fps_values table) in
  let descend := l_descend (count_scan table) in
  let max_level := Z.of_nat (length d) - 1 in
  is_uint x ->
  descend = direction d
  /\ (x ∉ d ->
      get_property (Some table) true isp x GET_LEVEL = Fail (- EINVAL))
  /\ (int_indexed table -> monotonic d -> d !! i = Some x ->
      (descend = 1 ->
       get_property (Some table) true isp x GET_LEVEL = Ok (Z.of_nat i))
      /\ (descend = 0 ->
          get_property (Some table) true isp x GET_LEVEL
          = Ok (max_level - Z.of_nat i))).
Proof.
  intros d descend max_level Hx. subst descend.
  rewrite count_scan_descend. fold d.
  split; [reflexivity|]. split; [now apply get_level_absent|].
  intros Hint Hmono Hi.
  assert (Hk : position x d = Some (Z.of_nat i)).
  { destruct Hmono; [now apply position_descending
                    |now apply position_ascending]. }
  split; intros Hflag;
    (rewrite (get_level_at table isp x (Z.of_nat i));
     [fold d; rewrite Hflag; reflexivity|assumption|assumption| |exact Hk]);
    apply monotonic_head_last; try assumption;
    apply direction_two; fold d; auto.
Qed.

(** C5, amended: [levelToFps] reads its level through an [int]. It
    returns -EINVAL when the table has no valid entry and whenever that
    [int] is negative or greater than the maximum level, so for every
    level from [maxLevel + 1] up to [INT_MAX]; on a table whose first and
    last distinct values differ it returns the fps at the position the
    [int] names. *)
Theorem level_to_fps table isp level :
  let d := distinct (fps_values table) in
  let max_level := Z.of_nat (length d) - 1 in
  let r := get_property (Some table) true isp level GET_FPS in
  int_indexed table ->
  (d = [] -> r = Fail (- EINVAL))
  /\ (sint level < 0 \/ max_level < sint level -> r = Fail (- EINVAL))
  /\ (max_level < level <= INT_MAX -> r = Fail (- EINVAL))
  /\ (forall f, head d <> last d -> 0 <= sint level ->
      d !! Z.to_nat (sint level) = Some f -> r = Ok f).
Proof.
  intros d max_level r Hint. subst r max_level. repeat split.
  - intros Hd. apply get_fps_out_of_range; [assumption|]. fold d.
    rewrite Hd. simpl. destruct (Z.lt_ge_cases (sint level) 0); lia.
  - now apply get_fps_out_of_range.
  - intros Hl. apply get_fps_out_of_range; [assumption|]. fold d.
    assert (0 <= Z.of_nat (length d)) by lia.
    rewrite sint_small by (unfold INT_MAX in *; lia). lia.
  - intros f Hhl Hpos Hf. now apply get_fps_at.
Qed.

(** C4: the table [(30,0), (15,1), (7,2), END]. *)
Theorem concrete_scenario isp state :
  ISP_FPS_ENTRY_INVALID ∉ [30; 15; 7] -> ISP_FPS_TABLE_END ∉ [30; 15; 7] ->
  let table :=
    Some [entry 30 0; entry 15 1; entry 7 2; entry ISP_FPS_TABLE_END 0] in
  get_property table true isp 0 GET_MAXL = Ok 2
  /\ isp_get_max_state table state = (0, 2)
  /\ get_property table true isp 30 GET_LEVEL = Ok 0
  /\ get_property table true isp 7 GET_LEVEL = Ok 2
  /\ get_property table true isp 0 GET_FPS = Ok 30
  /\ get_property table true isp 2 GET_FPS = Ok 7
  /\ isp_cooling_get_level table isp 30 = 0
  /\ isp_cooling_get_level table isp 7 = 2
  /\ isp_cooling_get_fps table isp 0 = 30
  /\ isp_cooling_get_fps table isp 2 = 7.
Proof.
  intros Hinv Hend table.
  rewrite !not_elem_of_cons in Hinv, Hend.
  assert (Hv : valid_entries
                 [entry 30 0; entry 15 1; entry 7 2;
                  entry ISP_FPS_TABLE_END 0]
               = [entry 30 0; entry 15 1; entry 7 2]).
  { destruct Hinv as (I1 & I2 & I3 & _), Hend as (E1 & E2 & E3 & _).
    cbn [valid_entries entry fps]. rewrite Z.eqb_refl.
    rewrite !(proj2 (Z.eqb_neq _ _)) by congruence. reflexivity. }
  assert (Hq : forall input property,
             get_property table true isp input property
             = match property with
               | GET_MAXL => Ok 2
               | _ => lookup_scan property input (ulong (sint input)) 2 1 7 0
                        [entry 30 0; entry 15 1; entry 7 2]
               end).
  { intros. subst table. rewrite get_property_scan.
    - unfold fps_values. rewrite Hv. reflexivity.
    - unfold int_indexed, INT_MAX. simpl. lia.
    - unfold fps_values. now rewrite Hv. }
  unfold isp_cooling_get_level, isp_cooling_get_fps, isp_get_max_state.
  replace (get_property table true 0 0 GET_MAXL) with (Ok 2)
    by (symmetry; subst table; rewrite get_property_scan;
        [unfold fps_values; now rewrite Hv
        |unfold int_indexed, INT_MAX; simpl; lia
        |unfold fps_values; now rewrite Hv]).
  rewrite !Hq. repeat split; reflexivity.
Qed.

End Translation.

(** * The cooling controller: [isp_set_cur_state] *)

Section Controller.
Context {hdr : isp_cooling_h}.

(** C2, amended: setting the current level changes nothing and notifies
    nobody; setting another level stores the new level, cut to the 32
    bits of the field [isp_state], and makes one call on the notifier
    chain, which carries the new level uncut; the stored level is the
    new level whenever that fits an [unsigned int]. The call returns 0
    for every new level. *)
Theorem set_level dev new_level :
  let r := isp_set_cur_state dev new_level in
  r.1.1 = 0
  /\ (isp_state dev = new_level -> r = (0, dev, []))
  /\ (isp_state dev <> new_level ->
      r = (0,
           {| id := id dev; isp_state := uint new_level;
              isp_val := isp_val dev |},
           [{| event := ISP_THROTTLING; payload := new_level |}]))
  /\ (isp_state dev <> new_level -> is_uint new_level ->
      isp_state r.1.2 = new_level
      /\ r.2 = [{| event := ISP_THROTTLING; payload := new_level |}]).
Proof.
  unfold isp_set_cur_state, isp_apply_cooling. cbv zeta.
  destruct (Z.eqb_spec (isp_state dev) new_level) as [E|Hne]; cbn [fst snd].
  - repeat split; try reflexivity; intros; contradiction.
  - repeat split; try reflexivity; intros; try contradiction.
    cbn [isp_state]. now apply uint_small.
Qed.

End Controller.

(** * Table construction: [isp_cooling_table_init] *)

Section Construction.
Context {hdr : isp_cooling_h}.

Lemma store_at pre e rest upd :
  store (Some (pre ++ e :: rest)) (Z.of_nat (length pre)) upd
  = Done (Some (pre ++ upd e :: rest)).
Proof.
  unfold store, in_bounds. rewrite length_app. cbn [length].
  destruct (Z.leb_spec 0 (Z.of_nat (length pre))); [|lia].
  destruct (Z.ltb_spec (Z.of_nat (length pre))
              (Z.of_nat (length pre + S (length rest)))); [|lia].
  cbn [andb]. rewrite Nat2Z.id.
  rewrite <- (Nat.add_0_r (length pre)) at 1. now rewrite alter_app_r.
Qed.

Lemma load_at pre e rest :
  load (Some (pre ++ e :: rest)) (Z.of_nat (length pre)) = Done e.
Proof.
  unfold load, in_bounds. rewrite Nat2Z.id, list_lookup_middle by reflexivity.
  rewrite length_app. cbn [length].
  destruct (Z.leb_spec 0 (Z.of_nat (length pre))); [|lia].
  destruct (Z.ltb_spec (Z.of_nat (length pre))
              (Z.of_nat (length pre + S (length rest)))); [|lia].
  reflexivity.
Qed.

(** The loop fills the zeroed array behind the entries [pre] it has
    written with one entry per run the tracker [last_fps] does not
    hide. *)
Lemma fill_loop_spec ranges : forall pre m i last_fps,
  let freqs := map max_frequency ranges in
  let kept := distinct_from (uint last_fps) freqs in
  Forall is_uint freqs ->
  0 <= i -> i + Z.of_nat (length ranges) <= INT_MAX ->
  Z.of_nat (length pre) + Z.of_nat (length ranges) <= INT_MAX ->
  (length kept <= m)%nat ->
  exists last_fps',
    fill_loop {| f_i := i; f_last_fps := last_fps;
                 f_count := Z.of_nat (length pre);
                 f_table := Some (pre ++ replicate m zeroed) |} ranges
    = Done {| f_i := i + Z.of_nat (length ranges);
              f_last_fps := last_fps';
              f_count := Z.of_nat (length pre) + Z.of_nat (length kept);
              f_table :=
                Some (pre ++ kept_entries (Z.of_nat (length pre)) kept
                      ++ replicate (m - length kept) zeroed) |}.
Proof.
  induction ranges as [|range rest IH]; intros pre m i last_fps freqs kept
    Huint Hi Hlen Hpre Hroom.
  - exists last_fps. cbn. now rewrite !Z.add_0_r, Nat.sub_0_r.
  - subst freqs kept. cbn [map distinct_from length] in *.
    inversion Huint as [|? ? Hf Hrest]; subst.
    cbn [fill_loop]. unfold fill_body. cbn [f_last_fps f_i f_count f_table].
    rewrite (sint_small (i + 1)) by (unfold INT_MAX in *; lia).
    destruct (Z.eqb_spec (uint last_fps) (max_frequency range)) as [E|Hne].
    + cbn [exec_bind].
      destruct (IH pre m (i + 1) last_fps) as [lf' ->]; try assumption; try lia.
      exists lf'. do 2 f_equal. lia.
    + cbn [length] in Hroom. destruct m as [|m]; [lia|].
      cbn [replicate]. repeat (rewrite store_at; cbn [exec_bind]).
      rewrite load_at. cbn [exec_bind].
      change (set_fps (max_frequency range)
                (set_driver_data (uint (Z.of_nat (length pre)))
                   (set_flags 0 zeroed)))
        with (entry (max_frequency range) (uint (Z.of_nat (length pre)))).
      change (fps (entry (max_frequency range)
                     (uint (Z.of_nat (length pre)))))
        with (max_frequency range).
      rewrite (uint_small (Z.of_nat (length pre)))
        by (unfold UINT_MAX, INT_MAX in *; lia).
      rewrite (sint_small (Z.of_nat (length pre) + 1))
        by (unfold INT_MAX in *; lia).
      pose proof (IH (pre ++ [entry (max_frequency range)
                                (Z.of_nat (length pre))])
                    m (i + 1) (sint (max_frequency range))) as IH'.
      cbv zeta in IH'. rewrite uint_sint in IH' by exact Hf.
      rewrite length_app in IH'. cbn [length] in IH'.
      replace (Z.of_nat (length pre + 1)) with (Z.of_nat (length pre) + 1)
        in IH' by lia.
      rewrite <- app_assoc in IH'. cbn [app] in IH'.
      destruct IH' as [lf' ->]; try assumption; try lia.
      exists lf'. f_equal. f_equal; [lia|cbn [length]; lia|].
      cbn [kept_entries length]. rewrite <- !app_assoc. reflexivity.
Qed.

Lemma length_kept_entries idx fs : length (kept_entries idx fs) = length fs.
Proof.
  revert idx. induction fs as [|f fs IH]; intros idx; [reflexivity|].
  cbn [kept_entries length]. now rewrite IH.
Qed.

(** With the table pointer NULL the loop either stores, and so
    dereferences the pointer, or leaves the pointer as it is. *)
Lemma fill_loop_null ranges : forall i last_fps count,
  0 <= i -> i + Z.of_nat (length ranges) <= INT_MAX ->
  let st := {| f_i := i; f_last_fps := last_fps; f_count := count;
               f_table := None |} in
  fill_loop st ranges = Crash NullDereference
  \/ fill_loop st ranges
     = Done {| f_i := i + Z.of_nat (length ranges); f_last_fps := last_fps;
               f_count := count; f_table := None |}.
Proof.
  induction ranges as [|range rest IH]; intros i last_fps count Hi Hlen st.
  - right. subst st. cbn. now rewrite Z.add_0_r.
  - subst st. cbn [fill_loop length] in *. unfold fill_body.
    cbn [f_last_fps f_i f_count f_table].
    destruct (uint last_fps =? max_frequency range); [|now left].
    cbn [exec_bind].
    rewrite (sint_small (i + 1)) by (unfold INT_MAX in *; lia).
    destruct (IH (i + 1) last_fps count) as [H|H]; try lia.
    + now left.
    + right. rewrite H. do 2 f_equal. lia.
Qed.

(** C8, amended: in a build with ECT, construction returns -ENODEV when
    the thermal block or the function "ISP" is missing. Otherwise, the
    allocation having succeeded, the array holds one entry per run of
    consecutive ranges with the same max-frequency, except for a leading
    run of frequency 0xFFFFFFFF, which the initial [last_fps = -1] hides;
    each entry carries the frequency of its run and the next sequential
    index; the entry after the last one kept holds the end marker. *)
Theorem table_construction p old :
  config_ect p = true ->
  (ect_get_block p = None ->
   isp_cooling_table_init p old = Done (- ENODEV, old))
  /\ (forall block,
      ect_get_block p = Some block ->
      ect_ap_thermal_get_function block "ISP" = None ->
      isp_cooling_table_init p old = Done (- ENODEV, old))
  /\ (forall block function,
      ect_get_block p = Some block ->
      ect_ap_thermal_get_function block "ISP" = Some function ->
      kzalloc_ok p = true ->
      num_of_range function < INT_MAX ->
      let freqs := map max_frequency (range_list function) in
      let kept := distinct_from UINT_MAX freqs in
      Forall is_uint freqs ->
      isp_cooling_table_init p old
      = Done (0,
              Some (kept_entries 0 kept
                    ++ entry ISP_FPS_TABLE_END 0
                       :: replicate (length freqs - length kept) zeroed))
      /\ (head freqs <> Some UINT_MAX -> kept = distinct freqs)).
Proof.
  intros Hect. unfold isp_cooling_table_init. rewrite Hect.
  split; [now intros ->|]. split; [now intros block -> ->|].
  intros block function -> -> -> Hn Huint.
  set (freqs := map max_frequency (range_list function)) in *.
  set (kept := distinct_from UINT_MAX freqs) in *.
  split; [|now apply distinct_from_fresh].
  unfold num_of_range in *.
  rewrite sint_small by (unfold INT_MAX in *; lia).
  replace (Z.to_nat (Z.of_nat (length (range_list function)) + 1))
    with (S (length (range_list function))) by lia.
  pose proof (distinct_from_length UINT_MAX freqs) as Hk. fold kept in Hk.
  assert (Hlen : length freqs = length (range_list function))
    by (subst freqs; apply length_map).
  pose proof (fill_loop_spec (range_list function) []
                (S (length (range_list function))) 0 (-1)) as Hloop.
  cbv zeta in Hloop. change (uint (-1)) with UINT_MAX in Hloop.
  fold freqs kept in Hloop. cbn [length app] in Hloop.
  change (Z.of_nat 0) with 0 in Hloop.
  destruct Hloop as [lf' ->]; try assumption; try lia.
  cbn [exec_bind f_i f_count f_table]. rewrite !Z.add_0_l.
  rewrite Z.eqb_refl.
  replace (S (length (range_list function)) - length kept)%nat
    with (S (length freqs - length kept)) by lia.
  cbn [replicate].
  rewrite <- (length_kept_entries 0 kept) at 2. rewrite store_at.
  reflexivity.
Qed.

(** C9: when [kzalloc] fails, construction stores through the NULL
    pointer; it does not return, with -ENOMEM or otherwise. *)
Theorem allocation_failure_is_not_reported p old block function :
  config_ect p = true ->
  ect_get_block p = Some block ->
  ect_ap_thermal_get_function block "ISP" = Some function ->
  kzalloc_ok p = false ->
  num_of_range function <= INT_MAX ->
  isp_cooling_table_init p old = Crash NullDereference
  /\ forall table, isp_cooling_table_init p old <> Done (- ENOMEM, table).
Proof.
  intros Hect Hb Hf Hk Hn.
  assert (H : isp_cooling_table_init p old = Crash NullDereference).
  { unfold isp_cooling_table_init.
    rewrite Hect, Hb, Hf, Hk. unfold num_of_range in *.
    destruct (fill_loop_null (range_list function) 0 (-1) 0) as [->| ->];
      try lia; [reflexivity|].
    cbn [exec_bind f_i f_count f_table]. rewrite Z.add_0_l, Z.eqb_refl.
    reflexivity. }
  split; [exact H|]. intros table. rewrite H. discriminate.
Qed.

End Construction.

(** * Round trips *)

Section RoundTrip.
Context {hdr : isp_cooling_h}.

Lemma direction_descending d :
  descending d -> (2 <= length d)%nat -> direction d = 1.
Proof.
  intros Hs Hlen. destruct d as [|a [|b d]]; simpl in Hlen; try lia.
  inversion Hs as [|? ? _ Hhd]; subst. inversion Hhd; subst.
  simpl. destruct (Z.gtb_spec a b); [reflexivity|lia].
Qed.

(** On a strictly descending table with at least two levels the two
    exported translations are inverse to each other on the levels. *)
Theorem round_trip_descending table isp level :
  int_indexed table -> Forall is_uint (fps_values table) ->
  let d := distinct (fps_values table) in
  descending d -> (2 <= length d)%nat ->
  0 <= level <= Z.of_nat (length d) - 1 ->
  isp_cooling_get_level (Some table) isp
    (uint (isp_cooling_get_fps (Some table) isp level))
  = level.
Proof.
  intros Hint Huint d Hdesc Hlen Hlevel.
  pose proof (distinct_count_bound table Hint) as Hb. fold d in Hb.
  destruct (lookup_lt_is_Some_2 d (Z.to_nat level)) as [f Hf]; [lia|].
  assert (Hfu : is_uint f).
  { rewrite Forall_forall in Huint. apply Huint.
    apply distinct_elem. eapply list_elem_of_lookup_2. exact Hf. }
  assert (Hhl : head d <> last d)
    by (apply monotonic_head_last; [now left|assumption]).
  unfold isp_cooling_get_fps, isp_cooling_get_level.
  rewrite (get_fps_at table isp level f); try assumption;
    rewrite ?sint_small by (unfold INT_MAX in *; lia); try lia;
    try exact Hf.
  unfold is_uint, UINT_MAX in Hfu.
  rewrite (ulong_small f) by lia.
  rewrite (uint_small f) by (unfold UINT_MAX; lia).
  rewrite (ulong_small f) by lia.
  rewrite (get_level_at table isp f level); try assumption.
  - fold d. rewrite direction_descending by assumption.
    cbn. apply ulong_small. unfold INT_MAX in *. lia.
  - fold d. rewrite (position_descending d (Z.to_nat level) f) by assumption.
    f_equal. lia.
Qed.

Lemma direction_ascending d :
  ascending d -> (2 <= length d)%nat -> direction d = 0.
Proof.
  intros Hs Hlen. destruct d as [|a [|b d]]; simpl in Hlen; try lia.
  inversion Hs as [|? ? _ Hhd]; subst. inversion Hhd; subst.
  simpl. destruct (Z.gtb_spec a b); [lia|reflexivity].
Qed.

(** On a strictly ascending table with at least two levels the round
    trip mirrors the level: [levelToFps] counts positions from the front
    of the table, [fpsToLevel] from its end. *)
Theorem round_trip_ascending table isp level :
  int_indexed table -> Forall is_uint (fps_values table) ->
  let d := distinct (fps_values table) in
  ascending d -> (2 <= length d)%nat ->
  0 <= level <= Z.of_nat (length d) - 1 ->
  isp_cooling_get_level (Some table) isp
    (uint (isp_cooling_get_fps (Some table) isp level))
  = Z.of_nat (length d) - 1 - level.
Proof.
  intros Hint Huint d Hasc Hlen Hlevel.
  pose proof (distinct_count_bound table Hint) as Hb. fold d in Hb.
  destruct (lookup_lt_is_Some_2 d (Z.to_nat level)) as [f Hf]; [lia|].
  assert (Hfu : is_uint f).
  { rewrite Forall_forall in Huint. apply Huint.
    apply distinct_elem. eapply list_elem_of_lookup_2. exact Hf. }
  assert (Hhl : head d <> last d)
    by (apply monotonic_head_last; [now right|assumption]).
  unfold isp_cooling_get_fps, isp_cooling_get_level.
  rewrite (get_fps_at table isp level f); try assumption;
    rewrite ?sint_small by (unfold INT_MAX in *; lia); try lia;
    try exact Hf.
  unfold is_uint, UINT_MAX in Hfu.
  rewrite (ulong_small f) by lia.
  rewrite (uint_small f) by (unfold UINT_MAX; lia).
  rewrite (ulong_small f) by lia.
  rewrite (get_level_at table isp f level); try assumption.
  - fold d. rewrite direction_ascending by assumption.
    cbn. apply ulong_small. unfold INT_MAX in *. lia.
  - fold d. rewrite (position_ascending d (Z.to_nat level) f) by assumption.
    f_equal. lia.
Qed.

(** The maximum level of a table with a valid entry is the number of
    its distinct fps values, consecutive duplicates counted once, less
    one. *)
Theorem max_level_counts_distinct table isp input :
  int_indexed table -> valid_entries table <> [] ->
  get_property (Some table) true isp input GET_MAXL
  = Ok (Z.of_nat (length (distinct (fps_values table))) - 1).
Proof.
  intros Hint Hv. rewrite get_property_scan; [reflexivity|assumption|].
  intros Hd. apply distinct_nil in Hd. unfold fps_values in Hd.
  now destruct (valid_entries table).
Qed.

(** [isp_get_max_state] on a table with one distinct fps value returns
    0 and leaves [*state] as the caller had it: the maximum level 0 is
    not stored. *)
Theorem max_state_of_single_value_table table v state :
  distinct (fps_values table) = [v] ->
  isp_get_max_state (Some table) state = (0, state).
Proof.
  intros Hd. unfold isp_get_max_state, get_property. cbn [negb].
  rewrite count_scan_max_level, Hd. reflexivity.
Qed.

End RoundTrip.

(** * The model on concrete inputs *)

(** C1: the round trip fails on the ascending table [10, 20, 30, END],
    where level 0 is translated to 10 fps and 10 fps back to level 2, and
    on the table [30, END], where the maximum level is 0 and level 0 has
    no fps. *)
Theorem round_trip_fails :
  let ascending_table :=
    Some [entry 10 0; entry 20 1; entry 30 2; entry 4294967294 0] in
  let single_table := Some [entry 30 0; entry 4294967294 0] in
  (@get_property stock_header ascending_table true 0 0 GET_MAXL = Ok 2
   /\ @isp_cooling_get_fps stock_header ascending_table 0 0 = 10
   /\ @isp_cooling_get_level stock_header ascending_table 0 10 = 2)
  /\ (@get_property stock_header single_table true 0 0 GET_MAXL = Ok 0
      /\ @get_property stock_header single_table true 0 0 GET_FPS
         = Fail (- EINVAL)
      /\ @isp_cooling_get_fps stock_header single_table 0 0
         = @ISP_FPS_INVALID stock_header).
Proof. vm_compute. repeat split. Qed.

(** C2, as stated, fails: from level 0 the new level 2^32 is signalled
    to the notifier chain, and the level stored is 0 again. *)
Lemma set_level_truncates :
  let dev := {| id := 0; isp_state := 0; isp_val := 0 |} in
  let r := @isp_set_cur_state stock_header dev 4294967296 in
  isp_state dev <> 4294967296
  /\ r.2 = [{| event := @ISP_THROTTLING stock_header;
               payload := 4294967296 |}]
  /\ isp_state r.1.2 = 0
  /\ isp_state r.1.2 <> 4294967296.
Proof. vm_compute. repeat split; discriminate. Qed.

(** C5, as stated, fails: on the table [30, 15, 7, END], whose maximum
    level is 2, level 2^32 is translated to 30 fps; and on the table
    [30, END], whose maximum level is 0, level 0 is not translated. *)
Lemma level_to_fps_truncates :
  let table := Some [entry 30 0; entry 15 1; entry 7 2; entry 4294967294 0] in
  let single_table := Some [entry 30 0; entry 4294967294 0] in
  (@get_property stock_header table true 0 0 GET_MAXL = Ok 2
   /\ 2 < 4294967296
   /\ @get_property stock_header table true 0 4294967296 GET_FPS = Ok 30)
  /\ (@get_property stock_header single_table true 0 0 GET_MAXL = Ok 0
      /\ @get_property stock_header single_table true 0 0 GET_FPS
         = Fail (- EINVAL)).
Proof. vm_compute. repeat split. Qed.

(** C8, as stated, fails: of the two runs of the ranges with
    frequencies 0xFFFFFFFF and 30 only the second one gets an entry. *)
Lemma table_construction_drops_leading_run :
  distinct [4294967295; 30] = [4294967295; 30]
  /\ @isp_cooling_table_init stock_header
       (stock_platform [4294967295; 30] true) None
     = Done (0, Some [entry 30 0; entry 4294967294 0; zeroed]).
Proof. vm_compute. split; reflexivity. Qed.

(** ** The theorems at concrete inputs *)

Lemma stock_sentinels_fresh :
  (@ISP_FPS_ENTRY_INVALID stock_header ∉ [30; 15; 7])
  /\ (@ISP_FPS_TABLE_END stock_header ∉ [30; 15; 7]).
Proof.
  split; rewrite !not_elem_of_cons; repeat split; try discriminate;
    apply not_elem_of_nil.
Defined.

Lemma empty_table_fails_witness :
  @get_property stock_header None true 0 30 GET_LEVEL = Fail (- EINVAL)
  /\ @get_property stock_header (Some [entry 4294967294 0]) true 0 0 GET_MAXL
     = Fail (- EINVAL).
Proof.
  split.
  - apply (@empty_table_fails stock_header). now left.
  - apply (@empty_table_fails stock_header). right.
    exists [entry 4294967294 0]. split; reflexivity.
Defined.

Lemma single_value_table_witness :
  @get_property stock_header (Some [entry 30 0; entry 4294967294 0])
    true 0 30 GET_LEVEL
  = Fail (- EINVAL).
Proof.
  exact (proj1 (proj2 (proj2
           (@single_value_table stock_header
              [entry 30 0; entry 4294967294 0] 30 0 0 eq_refl)))).
Defined.

Lemma fps_to_level_witness :
  @get_property stock_header
    (Some [entry 30 0; entry 15 1; entry 7 2; entry 4294967294 0])
    true 0 7 GET_LEVEL
  = Ok 2.
Proof.
  refine (proj1 (proj2 (proj2
            (@fps_to_level stock_header
               [entry 30 0; entry 15 1; entry 7 2; entry 4294967294 0]
               0 7 2 _)) _ _ _) _).
  - unfold is_uint, UINT_MAX. lia.
  - unfold int_indexed, INT_MAX. simpl. lia.
  - left. repeat constructor.
  - reflexivity.
  - reflexivity.
Defined.

Lemma level_to_fps_witness :
  @get_property stock_header
    (Some [entry 30 0; entry 15 1; entry 7 2; entry 4294967294 0])
    true 0 3 GET_FPS
  = Fail (- EINVAL)
  /\ @get_property stock_header
       (Some [entry 30 0; entry 15 1; entry 7 2; entry 4294967294 0])
       true 0 2 GET_FPS
     = Ok 7.
Proof.
  assert (Hint : int_indexed
                   [entry 30 0; entry 15 1; entry 7 2; entry 4294967294 0])
    by (unfold int_indexed, INT_MAX; simpl; lia).
  split.
  - refine (proj1 (proj2 (proj2
              (@level_to_fps stock_header _ 0 3 Hint))) _).
    vm_compute. split; [reflexivity|discriminate].
  - refine (proj2 (proj2 (proj2
              (@level_to_fps stock_header _ 0 2 Hint))) 7 _ _ _).
    + discriminate.
    + vm_compute. discriminate.
    + reflexivity.
Defined.

Lemma concrete_scenario_witness :
  @get_property stock_header
    (Some [entry 30 0; entry 15 1; entry 7 2; entry 4294967294 0])
    true 0 0 GET_MAXL
  = Ok 2.
Proof.
  exact (proj1 (@concrete_scenario stock_header 0 0
                  (proj1 stock_sentinels_fresh)
                  (proj2 stock_sentinels_fresh))).
Defined.

Lemma set_level_witness :
  isp_state
    (@isp_set_cur_state stock_header
       {| id := 0; isp_state := 0; isp_val := 0 |} 2).1.2
  = 2.
Proof.
  refine (proj1 (proj2 (proj2 (proj2
            (@set_level stock_header
               {| id := 0; isp_state := 0; isp_val := 0 |} 2))) _ _)).
  - discriminate.
  - unfold is_uint, UINT_MAX. lia.
Defined.

Lemma table_construction_witness :
  @isp_cooling_table_init stock_header
    (stock_platform [30; 30; 15; 15; 7] true) None
  = Done (0, Some [entry 30 0; entry 15 1; entry 7 2; entry 4294967294 0;
                   zeroed; zeroed]).
Proof.
  refine (proj1 (proj2 (proj2
            (@table_construction stock_header
               (stock_platform [30; 30; 15; 15; 7] true) None eq_refl))
            [isp_function [30; 30; 15; 15; 7]]
            (isp_function [30; 30; 15; 15; 7]) eq_refl eq_refl eq_refl _ _)).
  - unfold INT_MAX. vm_compute. reflexivity.
  - simpl. repeat (constructor; [unfold is_uint, UINT_MAX; lia|]).
    constructor.
Defined.

Lemma allocation_failure_witness :
  @isp_cooling_table_init stock_header
    (stock_platform [30; 15; 7] false) None
  = Crash NullDereference.
Proof.
  apply (@allocation_failure_is_not_reported stock_header
           (stock_platform [30; 15; 7] false) None
           [isp_function [30; 15; 7]] (isp_function [30; 15; 7]));
    try reflexivity.
  unfold INT_MAX. vm_compute. discriminate.
Defined.

Lemma round_trip_descending_witness :
  @isp_cooling_get_level stock_header
    (Some [entry 30 0; entry 15 1; entry 7 2; entry 4294967294 0]) 0
    (uint (@isp_cooling_get_fps stock_header
             (Some [entry 30 0; entry 15 1; entry 7 2; entry 4294967294 0])
             0 1))
  = 1.
Proof.
  apply (@round_trip_descending stock_header).
  - unfold int_indexed, INT_MAX. simpl. lia.
  - change (Forall is_uint [30; 15; 7]).
    repeat (constructor; [unfold is_uint, UINT_MAX; lia|]). constructor.
  - repeat constructor.
  - simpl. lia.
  - simpl. lia.
Defined.

Lemma round_trip_ascending_witness :
  @isp_cooling_get_level stock_header
    (Some [entry 10 0; entry 20 1; entry 30 2; entry 4294967294 0]) 0
    (uint (@isp_cooling_get_fps stock_header
             (Some [entry 10 0; entry 20 1; entry 30 2; entry 4294967294 0])
             0 0))
  = 2.
Proof.
  apply (@round_trip_ascending stock_header
           [entry 10 0; entry 20 1; entry 30 2; entry 4294967294 0] 0 0).
  - unfold int_indexed, INT_MAX. simpl. lia.
  - change (Forall is_uint [10; 20; 30]).
    repeat (constructor; [unfold is_uint, UINT_MAX; lia|]). constructor.
  - repeat constructor.
  - simpl. lia.
  - simpl. lia.
Defined.

Lemma max_state_of_single_value_table_witness :
  @isp_get_max_state stock_header
    (Some [entry 30 0; entry 4294967294 0]) 7
  = (0, 7).
Proof.
  exact (@max_state_of_single_value_table stock_header
           [entry 30 0; entry 4294967294 0] 30 7 eq_refl).
Defined.

Lemma max_level_counts_distinct_witness :
  @get_property stock_header
    (Some [entry 30 0; entry 30 1; entry 15 2; entry 4294967294 0])
    true 0 0 GET_MAXL
  = Ok 1.
Proof.
  apply (@max_level_counts_distinct stock_header
           [entry 30 0; entry 30 1; entry 15 2; entry 4294967294 0] 0 0).
  - unfold int_indexed, INT_MAX. simpl. lia.
  - discriminate.
Defined.

(** * More on the translation engine *)

Section TranslationMore.
Context {hdr : isp_cooling_h}.

Lemma valid_entries_not_end table :
  Forall (fun v => v <> ISP_FPS_TABLE_END) (fps_values table).
Proof.
  unfold fps_values. induction table as [|pos rest IH]; simpl; [constructor|].
  destruct (Z.eqb_spec (fps pos) ISP_FPS_TABLE_END); [constructor|].
  destruct (fps pos =? ISP_FPS_ENTRY_INVALID); [assumption|].
  now constructor.
Qed.

Lemma lookup_scan_errno property input level max_level descend entries :
  forall cur i,
  (exists v, lookup_scan property input level max_level descend cur i entries
             = Ok v)
  \/ lookup_scan property input level max_level descend cur i entries
     = Fail (- EINVAL).
Proof.
  induction entries as [|pos rest IH]; intros cur i; [now right|].
  cbn [lookup_scan]. destruct (cur =? fps pos); [apply IH|].
  destruct property.
  - destruct (uint input =? fps pos); [left; eauto|apply IH].
  - destruct (level =? ulong i); [left; eauto|apply IH].
  - apply IH.
Qed.

(** What a scan stores comes from the entries it runs over. *)
Lemma lookup_scan_fps_elem input level max_level descend entries :
  forall cur i f,
  lookup_scan GET_FPS input level max_level descend cur i entries = Ok f ->
  f ∈ map fps entries.
Proof.
  induction entries as [|pos rest IH]; intros cur i f; [discriminate|].
  cbn [lookup_scan map]. destruct (cur =? fps pos).
  - intros H. right. eauto.
  - destruct (level =? ulong i).
    + intros [= <-]. left.
    + intros H. right. eauto.
Qed.

Lemma lookup_scan_level_elem input level max_level descend entries :
  forall cur i l,
  lookup_scan GET_LEVEL input level max_level descend cur i entries = Ok l ->
  uint input ∈ map fps entries.
Proof.
  induction entries as [|pos rest IH]; intros cur i l; [discriminate|].
  cbn [lookup_scan map]. destruct (cur =? fps pos).
  - intros H. right. eauto.
  - destruct (Z.eqb_spec (uint input) (fps pos)) as [->|].
    + intros _. left.
    + intros H. right. eauto.
Qed.

(** [get_property] returns 0 or -EINVAL, whatever the table, the
    pointers and the query. *)
Theorem get_property_errno table output isp input property :
  (exists v, get_property table output isp input property = Ok v)
  \/ get_property table output isp input property = Fail (- EINVAL).
Proof.
  unfold get_property. destruct output; cbn [negb]; [|now right].
  destruct table as [table|]; [|now right].
  destruct (l_max_level (count_scan table) =? 0); [now right|].
  destruct property; try apply lookup_scan_errno. left. eauto.
Qed.

(** A translation that succeeds stays inside the table: the fps
    [levelToFps] stores is the fps of a valid entry, so neither of the
    two sentinels, and the fps [fpsToLevel] was asked for, cut to an
    [unsigned int], is the fps of a valid entry. *)
Theorem translations_stay_in_table table isp input v :
  (get_property (Some table) true isp input GET_FPS = Ok v ->
   v ∈ fps_values table
   /\ v <> ISP_FPS_ENTRY_INVALID /\ v <> ISP_FPS_TABLE_END)
  /\ (get_property (Some table) true isp input GET_LEVEL = Ok v ->
      uint input ∈ fps_values table).
Proof.
  unfold get_property. cbn [negb].
  destruct (l_max_level (count_scan table) =? 0);
    [split; discriminate|].
  split; intros H.
  - apply lookup_scan_fps_elem in H. fold (fps_values table) in H.
    pose proof (valid_entries_valid table) as Hi.
    pose proof (valid_entries_not_end table) as He.
    rewrite Forall_forall in Hi, He. auto.
  - now apply lookup_scan_level_elem in H.
Qed.

(** The level [fpsToLevel] stores on a table that fits the counters.  *)
Lemma get_level_result table isp x l :
  int_indexed table ->
  get_property (Some table) true isp x GET_LEVEL = Ok l ->
  let d := distinct (fps_values table) in
  let ds :=
    distinct_from (List.last (fps_values table) ISP_FPS_ENTRY_INVALID)
      (fps_values table) in
  exists k, position (uint x) ds = Some k
            /\ 0 <= k <= Z.of_nat (length d) - 1
            /\ l = if direction d =? 0 then Z.of_nat (length d) - 1 - k
                   else k.
Proof.
  intros Hint H d ds.
  assert (Hd : d <> []).
  { intros Ed. rewrite get_property_no_valid_entry in H; [discriminate|].
    apply distinct_nil in Ed. unfold fps_values in Ed.
    now destruct (valid_entries table). }
  rewrite get_property_scan in H by assumption.
  pose proof (valid_entries_length table) as Hv.
  pose proof (distinct_count_bound table Hint) as Hb.
  unfold int_indexed in Hint.
  rewrite lookup_scan_level in H by lia.
  fold (fps_values table) in H. fold ds d in H. fold d in Hb.
  destruct (position (uint x) ds) as [k|] eqn:Ek; [|discriminate].
  exists k. pose proof (position_range _ _ _ Ek) as Hk.
  pose proof (distinct_from_le_distinct
                (List.last (fps_values table) ISP_FPS_ENTRY_INVALID)
                (fps_values table)) as Hle.
  fold ds d in Hle.
  split; [reflexivity|]. split; [lia|].
  injection H as <-. unfold INT_MAX in *.
  destruct (direction d =? 0).
  + rewrite ulong_small by lia.
    rewrite uint_small by (unfold UINT_MAX; lia). lia.
  + rewrite uint_small by (unfold UINT_MAX; lia). lia.
Qed.

(** A level [fpsToLevel] stores never exceeds the maximum level
    [getMaxLevel] stores for the same table. *)
Theorem level_within_max_level table isp x l :
  int_indexed table ->
  get_property (Some table) true isp x GET_LEVEL = Ok l ->
  exists max_level,
    get_property (Some table) true isp 0 GET_MAXL = Ok max_level
    /\ 0 <= l <= max_level.
Proof.
  intros Hint H.
  destruct (get_level_result table isp x l Hint H) as (k & _ & Hk & ->).
  exists (Z.of_nat (length (distinct (fps_values table))) - 1). split.
  - rewrite get_property_scan; [reflexivity|assumption|].
    intros E. rewrite E in Hk. simpl in Hk. lia.
  - destruct (direction (distinct (fps_values table)) =? 0); lia.
Qed.

Lemma position_lookup x l k :
  position x l = Some k -> l !! Z.to_nat k = Some x.
Proof.
  revert k. induction l as [|y l IH]; intros k; [discriminate|].
  cbn [position]. destruct (Z.eqb_spec x y) as [->|].
  - now intros [= <-].
  - destruct (position x l) as [k'|] eqn:Ek; [|discriminate].
    intros [= <-]. pose proof (position_range _ _ _ Ek).
    replace (Z.to_nat (Z.succ k')) with (S (Z.to_nat k')) by lia.
    now apply IH.
Qed.

(** Two fps values that [fpsToLevel] translates to one level are the
    same value. *)
Theorem fps_to_level_injective table isp x1 x2 l :
  int_indexed table -> is_uint x1 -> is_uint x2 ->
  get_property (Some table) true isp x1 GET_LEVEL = Ok l ->
  get_property (Some table) true isp x2 GET_LEVEL = Ok l ->
  x1 = x2.
Proof.
  intros Hint H1 H2 E1 E2.
  destruct (get_level_result table isp x1 l Hint E1) as (k1 & P1 & R1 & L1).
  destruct (get_level_result table isp x2 l Hint E2) as (k2 & P2 & R2 & L2).
  rewrite uint_small in P1, P2 by assumption.
  assert (k1 = k2)
    by (destruct (direction (distinct (fps_values table)) =? 0); lia).
  subst k2. apply position_lookup in P1, P2. congruence.
Qed.

(** The values the translation scan does not skip are the distinct
    values, with or without the first of them. *)
Lemma distinct_from_cases prev l :
  distinct_from prev l = distinct l \/ distinct_from prev l = tail (distinct l).
Proof.
  destruct l as [|x l]; [now left|]. cbn [distinct_from distinct tail].
  destruct (Z.eqb_spec prev x) as [->|]; [now right|now left].
Qed.

Lemma sorted_lookup (R : Z -> Z -> Prop) d (i j : nat) a b :
  (forall x y z, R x y -> R y z -> R x z) ->
  Sorted R d -> (i < j)%nat -> d !! i = Some a -> d !! j = Some b -> R a b.
Proof.
  intros Htrans. revert i j. induction d as [|y l IH]; intros i j Hs Hij Hi Hj;
    [discriminate|].
  destruct j as [|j]; [lia|]. cbn in Hj. destruct i as [|i].
  - cbn in Hi. injection Hi as ->. eapply sorted_above; try eassumption.
    eapply list_elem_of_lookup_2. exact Hj.
  - cbn in Hi. apply (IH i j); try assumption; [now inversion Hs|lia].
Qed.

Lemma sorted_tail (R : Z -> Z -> Prop) d : Sorted R d -> Sorted R (tail d).
Proof. intros Hs. destruct d; [assumption|]. now inversion Hs. Qed.

(** The fps [levelToFps] stores on a table that fits the counters. *)
Lemma get_fps_result table isp level f :
  int_indexed table -> 0 <= level <= INT_MAX ->
  get_property (Some table) true isp level GET_FPS = Ok f ->
  distinct_from (List.last (fps_values table) ISP_FPS_ENTRY_INVALID)
    (fps_values table) !! Z.to_nat level = Some f.
Proof.
  intros Hint Hl H.
  assert (Hd : distinct (fps_values table) <> []).
  { intros Ed. rewrite get_property_no_valid_entry in H; [discriminate|].
    apply distinct_nil in Ed. unfold fps_values in Ed.
    now destruct (valid_entries table). }
  rewrite get_property_scan in H by assumption.
  pose proof (valid_entries_length table) as Hv. unfold int_indexed in Hint.
  rewrite lookup_scan_fps in H by lia. fold (fps_values table) in H.
  rewrite sint_small in H by (unfold INT_MAX in *; lia).
  rewrite ulong_small in H by (unfold INT_MAX in *; lia).
  destruct (Z.leb_spec 0 level); [|lia]. rewrite Z.sub_0_r in H.
  match type of H with
  | match ?o with _ => _ end = _ => destruct o; [congruence|discriminate]
  end.
Qed.

(** On a table whose distinct fps values are strictly descending a
    higher level is translated to a lower fps; on one whose values are
    strictly ascending, to a higher fps. *)
Theorem level_to_fps_monotonic table isp l1 l2 f1 f2 :
  int_indexed table -> 0 <= l1 -> l1 < l2 -> l2 <= INT_MAX ->
  get_property (Some table) true isp l1 GET_FPS = Ok f1 ->
  get_property (Some table) true isp l2 GET_FPS = Ok f2 ->
  (descending (distinct (fps_values table)) -> f1 > f2)
  /\ (ascending (distinct (fps_values table)) -> f1 < f2).
Proof.
  intros Hint H0 H12 Hmax E1 E2.
  apply get_fps_result in E1; [|assumption|lia].
  apply get_fps_result in E2; [|assumption|lia].
  split; intros Hs;
    (eapply (sorted_lookup _ _ (Z.to_nat l1) (Z.to_nat l2));
     [intros; lia| |lia|exact E1|exact E2]);
    (destruct (distinct_from_cases
                 (List.last (fps_values table) ISP_FPS_ENTRY_INVALID)
                 (fps_values table)) as [-> | ->];
     [exact Hs|now apply sorted_tail]).
Qed.

(** On a strictly descending table with at least two levels,
    translating the fps of a valid entry to its level and the level back
    yields the fps again. *)
Theorem fps_round_trip_descending table isp f :
  int_indexed table -> Forall is_uint (fps_values table) ->
  let d := distinct (fps_values table) in
  descending d -> (2 <= length d)%nat ->
  f ∈ fps_values table ->
  isp_cooling_get_fps (Some table) isp
    (isp_cooling_get_level (Some table) isp f)
  = f.
Proof.
  intros Hint Huint d Hdesc Hlen Hf.
  pose proof (distinct_count_bound table Hint) as Hb. fold d in Hb.
  assert (Hfu : is_uint f) by (rewrite Forall_forall in Huint; auto).
  apply distinct_elem in Hf. fold d in Hf.
  apply list_elem_of_lookup_1 in Hf as [i Hi].
  pose proof (lookup_lt_Some _ _ _ Hi) as Hil.
  assert (Hhl : head d <> last d)
    by (apply monotonic_head_last; [now left|assumption]).
  unfold isp_cooling_get_fps, isp_cooling_get_level.
  unfold is_uint, UINT_MAX in Hfu. rewrite (ulong_small f) by lia.
  rewrite (get_level_at table isp f (Z.of_nat i));
    [|assumption|unfold is_uint, UINT_MAX; lia|assumption
     |now apply position_descending].
  fold d. rewrite direction_descending by assumption. cbn [Z.eqb].
  unfold INT_MAX in Hb. rewrite (ulong_small (Z.of_nat i)) by lia.
  rewrite (get_fps_at table isp (Z.of_nat i) f); try assumption.
  - apply ulong_small. lia.
  - rewrite sint_small by (unfold INT_MAX; lia). lia.
  - rewrite sint_small by (unfold INT_MAX; lia). fold d.
    now rewrite Nat2Z.id.
Qed.

(** [isp_get_max_state] stores the maximum level and returns 0 on a
    table with at least two distinct fps values; without a table, or
    without a valid entry in it, it returns -EINVAL and stores nothing. *)
Theorem max_state_spec table state :
  int_indexed table ->
  ((2 <= length (distinct (fps_values table)))%nat ->
   isp_get_max_state (Some table) state
   = (0, Z.of_nat (length (distinct (fps_values table))) - 1))
  /\ (valid_entries table = [] ->
      isp_get_max_state (Some table) state = (- EINVAL, state))
  /\ isp_get_max_state None state = (- EINVAL, state).
Proof.
  intros Hint. unfold isp_get_max_state. repeat split.
  - intros Hlen. pose proof (distinct_count_bound table Hint) as Hb.
    rewrite get_property_scan;
      [|assumption|intros E; rewrite E in Hlen; simpl in Hlen; lia].
    cbv zeta.
    destruct (Z.gtb_spec (Z.of_nat (length (distinct (fps_values table))) - 1)
                0); [|lia].
    f_equal. apply ulong_small. unfold INT_MAX in Hb. lia.
  - intros Hv. now rewrite get_property_no_valid_entry.
Qed.

End TranslationMore.

(** * Successive requests to the controller *)

Section Requests.
Context {hdr : isp_cooling_h}.

(** Over a sequence of requested levels that fit an [unsigned int],
    the notifier chain is called once per run of equal consecutive
    requests, the current level counting as the request in front of the
    first one, with the level of the run; afterwards the device is at the
    last level requested, which [isp_get_cur_state] reports. *)
Theorem notifications_collapse_runs dev states :
  Forall is_uint states ->
  let r := set_cur_states dev states in
  r.2 = map (fun s => {| event := ISP_THROTTLING; payload := s |})
          (distinct_from (isp_state dev) states)
  /\ isp_state r.1 = List.last states (isp_state dev)
  /\ id r.1 = id dev
  /\ (states <> [] -> isp_get_cur_state r.1 = (0, List.last states 0)).
Proof.
  intros Hs. cbv zeta.
  assert (H : (set_cur_states dev states).2
              = map (fun s => {| event := ISP_THROTTLING; payload := s |})
                  (distinct_from (isp_state dev) states)
              /\ isp_state (set_cur_states dev states).1
                 = List.last states (isp_state dev)
              /\ id (set_cur_states dev states).1 = id dev).
  { revert dev. induction Hs as [|s rest Hu _ IH]; intros dev;
      [repeat split|].
    cbn [set_cur_states distinct_from]. rewrite last_shift.
    unfold isp_set_cur_state, isp_apply_cooling.
    destruct (Z.eqb_spec (isp_state dev) s) as [E|Hne].
    - specialize (IH dev). destruct (set_cur_states dev rest) as [d' sent'].
      cbn [fst snd app] in *. now rewrite <- E.
    - specialize (IH {| id := id dev; isp_state := uint s;
                        isp_val := isp_val dev |}).
      destruct (set_cur_states _ rest) as [d' sent'].
      cbn [fst snd app map isp_state id] in *.
      rewrite (uint_small s) in IH by exact Hu.
      destruct IH as (-> & -> & ->). repeat split. }
  destruct H as (H1 & H2 & H3). repeat split; try assumption.
  intros Hne. unfold isp_get_cur_state. rewrite H2. f_equal.
  destruct states as [|s rest]; [congruence|]. rewrite !last_shift.
  assert (Hl : is_uint (List.last rest s)).
  { rewrite Forall_forall in Hs. apply Hs.
    rewrite <- (last_shift s rest s). apply last_elem. discriminate. }
  apply ulong_small. unfold is_uint, UINT_MAX in Hl. lia.
Qed.

End Requests.

(** * The profile import: [parse_ect_cooling_level] *)

Section ProfileImport.
Context {hdr : isp_cooling_h}.
Variable strncasecmp : string -> string -> Z -> Z.
Variable THERMAL_NAME_LENGTH : Z.
Variable tz_type : Z -> string.
Variable get_thermal_instance : Z -> Z -> option Z.

(** What [linux/thermal.h] says: [THERMAL_CSTATE_INVALID] is [-1UL]. *)
Hypothesis cstate_invalid : THERMAL_CSTATE_INVALID = 2 ^ 64 - 1.

Lemma max_state_range table :
  fits table -> 0 <= (isp_get_max_state table 0).2 <= INT_MAX.
Proof.
  intros Hfit. unfold isp_get_max_state.
  destruct table as [table|]; [|cbn; unfold INT_MAX; lia].
  destruct (distinct (fps_values table)) as [|x0 d0] eqn:Ed.
  - rewrite get_property_no_valid_entry; [cbn; unfold INT_MAX; lia|].
    apply distinct_nil in Ed. unfold fps_values in Ed.
    now destruct (valid_entries table).
  - rewrite get_property_scan by (try assumption; congruence). cbv zeta.
    pose proof (distinct_count_bound table Hfit) as Hb.
    rewrite Ed in *. cbn [snd]. unfold INT_MAX in *. cbn [length] in *.
    destruct (Z.of_nat (S (length d0)) - 1 >? 0);
      [rewrite ulong_small|]; lia.
Qed.

Lemma max_state_is_max_level table :
  int_indexed table -> distinct (fps_values table) <> [] ->
  (isp_get_max_state (Some table) 0).2
  = Z.of_nat (length (distinct (fps_values table))) - 1.
Proof.
  intros Hint Hd. unfold isp_get_max_state.
  rewrite get_property_scan by assumption. cbv zeta. cbn [snd].
  pose proof (distinct_count_bound table Hint) as Hb. unfold INT_MAX in Hb.
  assert (0 < Z.of_nat (length (distinct (fps_values table))))
    by (destruct (distinct (fps_values table)); [congruence|simpl; lia]).
  destruct (Z.gtb_spec (Z.of_nat (length (distinct (fps_values table))) - 1)
              0); [apply ulong_small|]; lia.
Qed.

Lemma expected_upper_range table freq :
  fits table ->
  0 <= expected_upper table freq <= (isp_get_max_state table 0).2.
Proof.
  intros Hfit. pose proof (max_state_range table Hfit) as Hm.
  unfold expected_upper.
  destruct (get_property table true 0 (ulong freq) GET_LEVEL) as [l|]
    eqn:E; [|lia].
  destruct table as [table|]; [|discriminate].
  destruct (get_level_result table 0 (ulong freq) l Hfit E)
    as (k & _ & Hk & ->).
  rewrite max_state_is_max_level;
    [|assumption|intros Ed; rewrite Ed in Hk; simpl in Hk; lia].
  destruct (direction (distinct (fps_values table)) =? 0); lia.
Qed.

(** The value one iteration stores in [upper]. *)
Lemma stored_upper table freq :
  fits table ->
  let max_level := (isp_get_max_state table 0).2 in
  let level := sint (isp_cooling_get_level table 0 freq) in
  ulong (if ulong level =? THERMAL_CSTATE_INVALID then sint max_level
         else level)
  = expected_upper table freq.
Proof.
  intros Hfit. cbv zeta.
  pose proof (expected_upper_range table freq Hfit) as Hr.
  pose proof (max_state_range table Hfit) as Hm.
  unfold expected_upper, isp_cooling_get_level in *.
  rewrite cstate_invalid. unfold INT_MAX in *.
  destruct (get_property table true 0 (ulong freq) GET_LEVEL) as [l|].
  - rewrite (ulong_small l) by lia.
    rewrite (sint_small l) by (unfold INT_MAX; lia).
    rewrite (ulong_small l) by lia.
    destruct (Z.eqb_spec l (2 ^ 64 - 1)); [lia|]. apply ulong_small. lia.
  - change (ulong (sint (2 ^ 64 - 1)) =? 2 ^ 64 - 1) with true. cbv iota.
    rewrite sint_small by (unfold INT_MAX; lia). apply ulong_small. lia.
Qed.

Lemma ect_level_loop_unreached table tz h ranges : forall i upper,
  0 <= i -> i + Z.of_nat (length ranges) <= INT_MAX ->
  (forall j, i <= j < i + Z.of_nat (length ranges) ->
             get_thermal_instance tz j = Some h ->
             exists k, i <= k < j /\ get_thermal_instance tz k = None) ->
  ect_level_loop get_thermal_instance table tz i ranges upper !! h
  = upper !! h.
Proof.
  induction ranges as [|range rest IH]; intros i upper Hi Hlen Hreach;
    [reflexivity|].
  cbn [ect_level_loop]. cbn [length] in *.
  destruct (get_thermal_instance tz i) as [instance|] eqn:Ei; [|reflexivity].
  rewrite (sint_small (i + 1)) by (unfold INT_MAX in *; lia).
  rewrite IH; try lia.
  - apply lookup_insert_ne. intros ->.
    destruct (Hreach i ltac:(lia) Ei) as (k & Hk & _). lia.
  - intros j Hj Ej. destruct (Hreach j ltac:(lia) Ej) as (k & Hk & Ek).
    exists k. split; [|exact Ek].
    assert (k <> i) by congruence. lia.
Qed.

Lemma ect_level_loop_values table tz ranges : forall i upper h v,
  fits table ->
  ect_level_loop get_thermal_instance table tz i ranges upper !! h = Some v ->
  upper !! h = Some v \/ 0 <= v <= (isp_get_max_state table 0).2.
Proof.
  induction ranges as [|range rest IH]; intros i upper h v Hfit H;
    [now left|].
  cbn [ect_level_loop] in H.
  destruct (get_thermal_instance tz i) as [instance|]; [|now left].
  rewrite stored_upper in H by assumption.
  apply IH in H as [H|H]; [|now right|assumption].
  destruct (decide (instance = h)) as [->|Hne].
  - rewrite lookup_insert_eq in H. injection H as <-. right.
    now apply expected_upper_range.
  - rewrite lookup_insert_ne in H by assumption. now left.
Qed.

Lemma ect_level_loop_exact table tz ranges : forall i upper,
  fits table -> 0 <= i -> i + Z.of_nat (length ranges) <= INT_MAX ->
  (forall j, i <= j < i + Z.of_nat (length ranges) ->
             is_Some (get_thermal_instance tz j)) ->
  (forall j k, i <= j < i + Z.of_nat (length ranges) ->
               i <= k < i + Z.of_nat (length ranges) ->
               get_thermal_instance tz j = get_thermal_instance tz k ->
               j = k) ->
  forall (n : nat) range h,
  ranges !! n = Some range ->
  get_thermal_instance tz (i + Z.of_nat n) = Some h ->
  ect_level_loop get_thermal_instance table tz i ranges upper !! h
  = Some (expected_upper table (max_frequency range)).
Proof.
  induction ranges as [|r rest IH];
    intros i upper Hfit Hi Hlen Hall Hinj n range h Hn Hh; [discriminate|].
  cbn [ect_level_loop]. cbn [length] in *.
  destruct (Hall i ltac:(lia)) as [instance Ei]. rewrite Ei.
  rewrite stored_upper by assumption.
  rewrite (sint_small (i + 1)) by (unfold INT_MAX in *; lia).
  destruct n as [|n].
  - cbn in Hn. injection Hn as ->. rewrite Z.add_0_r in Hh.
    assert (instance = h) by congruence. subst instance.
    rewrite ect_level_loop_unreached; [apply lookup_insert_eq|lia|lia|].
    intros j Hj Ej. assert (j = i); [|lia].
    apply Hinj; [lia|lia|congruence].
  - cbn in Hn. apply (IH (i + 1) _ Hfit ltac:(lia) ltac:(lia)) with (n := n);
      try assumption.
    + intros j Hj. apply Hall. lia.
    + intros j k Hj Hk. apply Hinj; lia.
    + rewrite <- Hh. f_equal. lia.
Qed.

(** The profile import returns 0. Without a zone of the requested name
    among the instances of the cooling device, without a thermal block or
    without a function of that name it changes no cap; and in any case it
    changes the cap of an instance only if it reaches it: the instance
    belongs to a trip of the function in front of which every trip has
    an instance. *)
Theorem profile_import_frame p table thermal_instances tz_name upper :
  let r :=
    parse_ect_cooling_level strncasecmp THERMAL_NAME_LENGTH tz_type
      get_thermal_instance p table thermal_instances tz_name upper in
  r.1 = 0
  /\ (find_zone strncasecmp THERMAL_NAME_LENGTH tz_type tz_name
        thermal_instances = None
      \/ ect_get_block p = None
      \/ (exists block, ect_get_block p = Some block
                        /\ ect_ap_thermal_get_function block tz_name = None)
      -> r.2 = upper)
  /\ (forall tz block function h,
      find_zone strncasecmp THERMAL_NAME_LENGTH tz_type tz_name
        thermal_instances = Some tz ->
      ect_get_block p = Some block ->
      ect_ap_thermal_get_function block tz_name = Some function ->
      num_of_range function <= INT_MAX ->
      (forall j, 0 <= j < num_of_range function ->
                 get_thermal_instance tz j = Some h ->
                 exists k, 0 <= k < j /\ get_thermal_instance tz k = None) ->
      r.2 !! h = upper !! h).
Proof.
  cbv zeta. unfold parse_ect_cooling_level. repeat split.
  - destruct (find_zone _ _ _ _ _); [|reflexivity].
    destruct (ect_get_block p); [|reflexivity].
    now destruct (ect_ap_thermal_get_function _ _).
  - intros [-> | [-> | (block & -> & ->)]];
      try reflexivity; now destruct (find_zone _ _ _ _ _).
  - intros tz block function h -> -> -> Hn Hreach. cbn [snd].
    unfold num_of_range in *. apply ect_level_loop_unreached; lia || auto.
Qed.

(** On a table that fits the counters, every cap the profile import
    stores lies between 0 and the maximum state [isp_get_max_state]
    reports. *)
Theorem profile_import_caps_in_range p table thermal_instances tz_name
    upper h v :
  fits table ->
  (parse_ect_cooling_level strncasecmp THERMAL_NAME_LENGTH tz_type
     get_thermal_instance p table thermal_instances tz_name upper).2 !! h
  = Some v ->
  upper !! h = Some v \/ 0 <= v <= (isp_get_max_state table 0).2.
Proof.
  intros Hfit. unfold parse_ect_cooling_level.
  destruct (find_zone _ _ _ _ _) as [tz|]; [|now left].
  destruct (ect_get_block p) as [block|]; [|now left].
  destruct (ect_ap_thermal_get_function _ _) as [function|]; [|now left].
  cbn [snd]. now apply ect_level_loop_values.
Qed.

(** When every trip of the function has an instance of its own, the
    import caps the instance of each trip at the level of the trip's
    max-frequency, and at the maximum state when that frequency has no
    level in the table. *)
Theorem profile_import_exact p table thermal_instances tz_name upper
    tz block function (n : nat) range h :
  fits table ->
  find_zone strncasecmp THERMAL_NAME_LENGTH tz_type tz_name
    thermal_instances = Some tz ->
  ect_get_block p = Some block ->
  ect_ap_thermal_get_function block tz_name = Some function ->
  num_of_range function <= INT_MAX ->
  (forall j, 0 <= j < num_of_range function ->
             is_Some (get_thermal_instance tz j)) ->
  (forall j k, 0 <= j < num_of_range function ->
               0 <= k < num_of_range function ->
               get_thermal_instance tz j = get_thermal_instance tz k ->
               j = k) ->
  range_list function !! n = Some range ->
  get_thermal_instance tz (Z.of_nat n) = Some h ->
  (parse_ect_cooling_level strncasecmp THERMAL_NAME_LENGTH tz_type
     get_thermal_instance p table thermal_instances tz_name upper).2 !! h
  = Some (expected_upper table (max_frequency range)).
Proof.
  intros Hfit Hz Hb Hf Hn Hall Hinj Hrange Hh.
  unfold parse_ect_cooling_level. rewrite Hz, Hb, Hf. cbn [snd].
  unfold num_of_range in *.
  apply (ect_level_loop_exact table tz (range_list function) 0 upper Hfit)
    with (n := n); try assumption; try lia.
Qed.

End ProfileImport.

(** * Registration: [__isp_cooling_register] and its callers *)

Section Registration.
Context {hdr : isp_cooling_h}.
Variable strncasecmp : string -> string -> Z -> Z.
Variable THERMAL_NAME_LENGTH : Z.
Variable tz_type : Z -> string.
Variable get_thermal_instance : Z -> Z -> option Z.

Lemma release_fresh_id (idr : gset Z) id :
  id ∉ idr -> release_idr ({[id]} ∪ idr) id = idr.
Proof.
  intros Hfresh. unfold release_idr. apply set_eq. intros x.
  rewrite elem_of_difference, elem_of_union, !elem_of_singleton. split.
  - intros [[->|H] Hne]; [contradiction|assumption].
  - intros H. split; [now right|]. intros ->. contradiction.
Qed.

Lemma uint_pred_succ c : uint (uint (c + 1) - 1) = uint c.
Proof.
  unfold uint. rewrite Zminus_mod_idemp_l. f_equal. lia.
Qed.


Lemma register_succeeds p env g dev g' :
  isp_cooling_register_helper strncasecmp THERMAL_NAME_LENGTH tz_type
    get_thermal_instance p env g = (inr dev, g') ->
  (id dev = r_idr_alloc env /\ 0 <= id dev /\ isp_state dev = 0)
  /\ g_idr g' = {[id dev]} ∪ g_idr g
  /\ g_dev_count g' = uint (g_dev_count g + 1)
  /\ g_table g' = g_table g.
Proof.
  unfold isp_cooling_register_helper, get_idr.
  destruct (r_kzalloc_ok env); [|discriminate].
  destruct (Z.ltb_spec (r_idr_alloc env) 0) as [Hneg|Hpos].
  - destruct (Z.eqb_spec (r_idr_alloc env) 0); [lia|discriminate].
  - cbn [Z.eqb negb default id].
    destruct (r_thermal_error env); [discriminate|].
    intros [= <- <-]. cbn [id isp_state g_idr g_dev_count g_table].
    repeat split; assumption.
Qed.


(** A registration that succeeds hands out a device at level 0 whose
    id is the one [idr_alloc] returned; it enters the id into the idr and
    counts the device. Unregistering that device takes the id out again
    and restores the counter; the fps table is not touched by either. *)
Theorem register_then_unregister p env g dev g1 :
  r_idr_alloc env ∉ g_idr g ->
  isp_cooling_register_helper strncasecmp THERMAL_NAME_LENGTH tz_type
    get_thermal_instance p env g = (inr dev, g1) ->
  (id dev = r_idr_alloc env /\ 0 <= id dev /\ isp_state dev = 0)
  /\ (g_idr g1 = {[id dev]} ∪ g_idr g
      /\ g_dev_count g1 = uint (g_dev_count g + 1)
      /\ g_table g1 = g_table g)
  /\ (let g2 := isp_cooling_unregister (Some dev) g1 in
      g_idr g2 = g_idr g
      /\ g_dev_count g2 = uint (g_dev_count g)
      /\ g_table g2 = g_table g).
Proof.
  intros Hfresh H.
  destruct (register_succeeds p env g dev g1 H)
    as ((Hid & Hpos & Hstate) & Hidr & Hcount & Htable).
  repeat split; try assumption; unfold isp_cooling_unregister;
    cbn [g_idr g_dev_count g_table].
  - rewrite Hidr. apply release_fresh_id. now rewrite Hid.
  - rewrite Hcount. apply uint_pred_succ.
Qed.



End Registration.

(** * From construction to translation *)

Section Pipeline.
Context {hdr : isp_cooling_h}.

Lemma distinct_from_idempotent prev l :
  distinct_from prev (distinct_from prev l) = distinct_from prev l.
Proof.
  revert prev. induction l as [|x l IH]; intros prev; [reflexivity|].
  cbn [distinct_from]. destruct (Z.eqb_spec prev x) as [->|Hne]; [apply IH|].
  cbn [distinct_from]. destruct (Z.eqb_spec prev x); [contradiction|].
  now rewrite IH.
Qed.

Lemma distinct_distinct_from prev l :
  distinct (distinct_from prev l) = distinct_from prev l.
Proof.
  revert prev. induction l as [|x l IH]; intros prev; [reflexivity|].
  cbn [distinct_from]. destruct (prev =? x); [apply IH|].
  cbn [distinct]. now rewrite distinct_from_idempotent.
Qed.

Lemma fps_kept_entries idx fs : map fps (kept_entries idx fs) = fs.
Proof.
  revert idx. induction fs as [|f fs IH]; intros idx; [reflexivity|].
  cbn [kept_entries map]. now rewrite IH.
Qed.

Lemma valid_entries_kept idx fs rest :
  Forall (fun f => f <> ISP_FPS_ENTRY_INVALID /\ f <> ISP_FPS_TABLE_END) fs ->
  valid_entries (kept_entries idx fs ++ entry ISP_FPS_TABLE_END 0 :: rest)
  = kept_entries idx fs.
Proof.
  intros Hfs. revert idx.
  induction Hfs as [|f fs [Hi He] _ IH]; intros idx.
  - cbn. now rewrite Z.eqb_refl.
  - cbn [kept_entries app valid_entries entry fps].
    destruct (Z.eqb_spec f ISP_FPS_TABLE_END); [contradiction|].
    destruct (Z.eqb_spec f ISP_FPS_ENTRY_INVALID); [contradiction|].
    now rewrite IH.
Qed.

Lemma table_init_result p old block function :
  config_ect p = true ->
  ect_get_block p = Some block ->
  ect_ap_thermal_get_function block "ISP" = Some function ->
  kzalloc_ok p = true ->
  num_of_range function < INT_MAX ->
  let freqs := map max_frequency (range_list function) in
  let kept := distinct_from UINT_MAX freqs in
  Forall is_uint freqs ->
  isp_cooling_table_init p old
  = Done (0,
          Some (kept_entries 0 kept
                ++ entry ISP_FPS_TABLE_END 0
                   :: replicate (length freqs - length kept) zeroed)).
Proof.
  intros Hect Hb Hf Hk Hn. cbv zeta. intros Huint.
  unfold isp_cooling_table_init. rewrite Hect, Hb, Hf, Hk.
  set (freqs := map max_frequency (range_list function)) in *.
  set (kept := distinct_from UINT_MAX freqs) in *.
  unfold num_of_range in *.
  rewrite sint_small by (unfold INT_MAX in *; lia).
  replace (Z.to_nat (Z.of_nat (length (range_list function)) + 1))
    with (S (length (range_list function))) by lia.
  pose proof (distinct_from_length UINT_MAX freqs) as Hlk. fold kept in Hlk.
  assert (Hlen : length freqs = length (range_list function))
    by (subst freqs; apply length_map).
  pose proof (fill_loop_spec (range_list function) []
                (S (length (range_list function))) 0 (-1)) as Hloop.
  cbv zeta in Hloop. change (uint (-1)) with UINT_MAX in Hloop.
  fold freqs kept in Hloop. cbn [length app] in Hloop.
  change (Z.of_nat 0) with 0 in Hloop.
  destruct Hloop as [lf' ->]; try assumption; try lia.
  cbn [exec_bind f_i f_count f_table]. rewrite !Z.add_0_l.
  rewrite Z.eqb_refl.
  replace (S (length (range_list function)) - length kept)%nat
    with (S (length freqs - length kept)) by lia.
  cbn [replicate].
  rewrite <- (length_kept_entries 0 kept) at 2. rewrite store_at.
  reflexivity.
Qed.

(** The table that construction installs for frequencies none of which
    is a sentinel holds, as the fps values the scans visit, the
    frequencies of the runs in order, with no two consecutive ones equal
    and one array slot per range plus one; its maximum level is the
    number of runs less one. *)
Theorem constructed_table p old block function isp input :
  config_ect p = true ->
  ect_get_block p = Some block ->
  ect_ap_thermal_get_function block "ISP" = Some function ->
  kzalloc_ok p = true ->
  num_of_range function < INT_MAX ->
  let freqs := map max_frequency (range_list function) in
  Forall is_uint freqs ->
  Forall (fun f => f <> ISP_FPS_ENTRY_INVALID /\ f <> ISP_FPS_TABLE_END)
    freqs ->
  head freqs <> Some UINT_MAX ->
  exists table,
    isp_cooling_table_init p old = Done (0, Some table)
    /\ Z.of_nat (length table) = num_of_range function + 1
    /\ fps_values table = distinct freqs
    /\ distinct (fps_values table) = fps_values table
    /\ (freqs <> [] ->
        get_property (Some table) true isp input GET_MAXL
        = Ok (Z.of_nat (length (distinct freqs)) - 1)).
Proof.
  intros Hect Hb Hf Hk Hn freqs Huint Hvalid Hhead.
  pose proof (table_init_result p old block function Hect Hb Hf Hk Hn Huint)
    as Hinit.
  cbv zeta in Hinit. fold freqs in Hinit.
  rewrite (distinct_from_fresh UINT_MAX freqs Hhead) in Hinit.
  pose proof (distinct_length freqs) as Hlk.
  assert (Hlen : length freqs = length (range_list function))
    by (subst freqs; apply length_map).
  assert (Hkept : Forall (fun f => f <> ISP_FPS_ENTRY_INVALID
                                    /\ f <> ISP_FPS_TABLE_END)
                    (distinct freqs)).
  { rewrite Forall_forall in *. intros f Hfin. apply Hvalid.
    now apply distinct_elem. }
  eexists. split; [exact Hinit|].
  assert (Hvals : fps_values
                    (kept_entries 0 (distinct freqs)
                     ++ entry ISP_FPS_TABLE_END 0
                        :: replicate (length freqs - length (distinct freqs))
                             zeroed)
                  = distinct freqs).
  { unfold fps_values. rewrite valid_entries_kept by assumption.
    apply fps_kept_entries. }
  assert (Hdd : distinct (distinct freqs) = distinct freqs).
  { rewrite <- (distinct_from_fresh UINT_MAX freqs Hhead).
    apply distinct_distinct_from. }
  assert (Hsize : Z.of_nat
                    (length
                       (kept_entries 0 (distinct freqs)
                        ++ entry ISP_FPS_TABLE_END 0
                           :: replicate
                                (length freqs - length (distinct freqs))
                                zeroed))
                  = num_of_range function + 1).
  { rewrite length_app, length_kept_entries. cbn [length].
    rewrite length_replicate. unfold num_of_range. lia. }
  split; [exact Hsize|]. split; [exact Hvals|].
  split; [now rewrite Hvals|].
  intros Hne. rewrite get_property_scan.
  - now rewrite Hvals, Hdd.
  - unfold int_indexed. lia.
  - rewrite Hvals, Hdd. destruct freqs; [congruence|discriminate].
Qed.

End Pipeline.

(** ** The further theorems at concrete inputs *)

Lemma stock_table_fits :
  int_indexed [entry 30 0; entry 15 1; entry 7 2; entry 4294967294 0].
Proof. unfold int_indexed, INT_MAX. simpl. lia. Defined.

Lemma stock_table_uint :
  Forall is_uint
    (@fps_values stock_header
       [entry 30 0; entry 15 1; entry 7 2; entry 4294967294 0]).
Proof.
  change (Forall is_uint [30; 15; 7]).
  repeat (constructor; [unfold is_uint, UINT_MAX; lia|]). constructor.
Defined.

Lemma translations_stay_in_table_witness :
  7 ∈ @fps_values stock_header
        [entry 30 0; entry 15 1; entry 7 2; entry 4294967294 0].
Proof.
  exact (proj1 (proj1 (@translations_stay_in_table stock_header
                         [entry 30 0; entry 15 1; entry 7 2;
                          entry 4294967294 0] 0 2 7) eq_refl)).
Defined.

Lemma level_within_max_level_witness :
  exists max_level,
    @get_property stock_header stock_table true 0 0 GET_MAXL = Ok max_level
    /\ 0 <= 1 <= max_level.
Proof.
  exact (@level_within_max_level stock_header _ 0 15 1 stock_table_fits
           eq_refl).
Defined.

Lemma fps_to_level_injective_witness : 15 = 15.
Proof.
  refine (@fps_to_level_injective stock_header
            [entry 30 0; entry 15 1; entry 7 2; entry 4294967294 0]
            0 15 15 1 stock_table_fits _ _ eq_refl eq_refl);
    unfold is_uint, UINT_MAX; lia.
Defined.

Lemma level_to_fps_monotonic_witness : 30 > 7.
Proof.
  refine (proj1 (@level_to_fps_monotonic stock_header
                   [entry 30 0; entry 15 1; entry 7 2; entry 4294967294 0]
                   0 0 2 30 7 stock_table_fits _ _ _ eq_refl eq_refl) _).
  - lia.
  - lia.
  - unfold INT_MAX. lia.
  - repeat constructor.
Defined.

Lemma fps_round_trip_descending_witness :
  @isp_cooling_get_fps stock_header stock_table 0
    (@isp_cooling_get_level stock_header stock_table 0 15)
  = 15.
Proof.
  apply (@fps_round_trip_descending stock_header
           [entry 30 0; entry 15 1; entry 7 2; entry 4294967294 0] 0 15
           stock_table_fits stock_table_uint).
  - repeat constructor.
  - simpl. lia.
  - change (15 ∈ [30; 15; 7]). right. left.
Defined.

Lemma max_state_spec_witness :
  @isp_get_max_state stock_header stock_table 9 = (0, 2)
  /\ @isp_get_max_state stock_header (Some [entry 4294967294 0]) 9
     = (- EINVAL, 9).
Proof.
  split.
  - refine (proj1 (@max_state_spec stock_header _ 9 stock_table_fits) _).
    simpl. lia.
  - refine (proj1 (proj2 (@max_state_spec stock_header
                            [entry 4294967294 0] 9 _)) eq_refl).
    unfold int_indexed, INT_MAX. simpl. lia.
Defined.

Lemma notifications_collapse_runs_witness :
  (@set_cur_states stock_header {| id := 0; isp_state := 0; isp_val := 0 |}
     [1; 1; 2; 2; 0]).2
  = [{| event := 0; payload := 1 |}; {| event := 0; payload := 2 |};
     {| event := 0; payload := 0 |}].
Proof.
  refine (proj1 (@notifications_collapse_runs stock_header
                   {| id := 0; isp_state := 0; isp_val := 0 |}
                   [1; 1; 2; 2; 0] _)).
  repeat (constructor; [unfold is_uint, UINT_MAX; lia|]). constructor.
Defined.

Lemma stock_cstate_invalid : @THERMAL_CSTATE_INVALID stock_header = 2 ^ 64 - 1.
Proof. reflexivity. Defined.

Lemma profile_import_frame_witness :
  (@parse_ect_cooling_level stock_header same_name 20 isp_zone
     (fun tz trip => if trip =? 1 then None else Some trip)
     (stock_platform [30; 15; 7; 5] true) stock_table [1] "ISP" ∅).2 !! 2
  = None.
Proof.
  refine (proj2 (proj2 (@profile_import_frame stock_header same_name 20
                          isp_zone
                          (fun tz trip => if trip =? 1 then None
                                          else Some trip)
                          (stock_platform [30; 15; 7; 5] true) stock_table
                          [1] "ISP" ∅))
            1 [isp_function [30; 15; 7; 5]] (isp_function [30; 15; 7; 5]) 2
            eq_refl eq_refl eq_refl _ _).
  - unfold INT_MAX. vm_compute. discriminate.
  - intros j Hj Ej. exists 1. split; [|reflexivity].
    destruct (Z.eqb_spec j 1); [discriminate|].
    injection Ej as ->. lia.
Defined.

Lemma profile_import_caps_in_range_witness :
  (∅ : gmap Z Z) !! 3 = Some 2
  \/ 0 <= 2 <= (@isp_get_max_state stock_header stock_table 0).2.
Proof.
  apply (@profile_import_caps_in_range stock_header same_name 20 isp_zone
           instance_per_trip stock_cstate_invalid
           (stock_platform [30; 15; 7; 5] true) stock_table [1] "ISP" ∅ 3 2).
  - exact stock_table_fits.
  - vm_compute. reflexivity.
Defined.

Lemma profile_import_exact_witness :
  (@parse_ect_cooling_level stock_header same_name 20 isp_zone
     instance_per_trip (stock_platform [30; 15; 7; 5] true) stock_table [1]
     "ISP" ∅).2 !! 3
  = Some (@expected_upper stock_header stock_table 5).
Proof.
  apply (@profile_import_exact stock_header same_name 20 isp_zone
           instance_per_trip stock_cstate_invalid
           (stock_platform [30; 15; 7; 5] true) stock_table [1] "ISP" ∅
           1 [isp_function [30; 15; 7; 5]] (isp_function [30; 15; 7; 5])
           3 {| lower_bound_temperature := 0; max_frequency := 5 |} 3).
  - exact stock_table_fits.
  - reflexivity.
  - reflexivity.
  - reflexivity.
  - unfold INT_MAX. vm_compute. discriminate.
  - intros j _. unfold instance_per_trip. eauto.
  - intros j k _ _ [= E]. exact E.
  - reflexivity.
  - reflexivity.
Defined.


Lemma register_then_unregister_witness :
  g_dev_count
    (@isp_cooling_register_helper stock_header same_name 20 isp_zone
       instance_per_trip (stock_platform [30; 15; 7] true)
       (stock_env true None) (fresh_globals stock_table)).2
  = uint (0 + 1).
Proof.
  refine (proj1 (proj2 (proj1 (proj2
            (@register_then_unregister stock_header same_name 20 isp_zone
               instance_per_trip (stock_platform [30; 15; 7] true)
               (stock_env true None) (fresh_globals stock_table)
               _ _ _ eq_refl))))).
  apply not_elem_of_empty.
Defined.


Lemma constructed_table_witness :
  exists table,
    @isp_cooling_table_init stock_header
      (stock_platform [30; 30; 15; 7] true) None
    = Done (0, Some table)
    /\ Z.of_nat (length table) = 4 + 1
    /\ @fps_values stock_header table = [30; 15; 7]
    /\ distinct (@fps_values stock_header table)
       = @fps_values stock_header table
    /\ ([30; 30; 15; 7] <> [] ->
        @get_property stock_header (Some table) true 0 0 GET_MAXL = Ok 2).
Proof.
  refine (@constructed_table stock_header
            (stock_platform [30; 30; 15; 7] true) None
            [isp_function [30; 30; 15; 7]] (isp_function [30; 30; 15; 7])
            0 0 eq_refl eq_refl eq_refl eq_refl _ _ _ _).
  - unfold INT_MAX. vm_compute. reflexivity.
  - change (Forall is_uint [30; 30; 15; 7]).
    repeat (constructor; [unfold is_uint, UINT_MAX; lia|]). constructor.
  - change (Forall (fun f => f <> 4294967295 /\ f <> 4294967294)
              [30; 30; 15; 7]).
    repeat (constructor; [split; discriminate|]). constructor.
  - discriminate.
Defined.
